(** * Thread splitting in [twitter_client.py]

    A shallow embedding of [TwitterClient._split_into_tweets] and of its two
    local helpers [clean_and_trim] and [find_sentence_boundary], followed by
    the properties of the splitter: the length bound on every fragment,
    preservation of the text, the choice of the cut point, termination and
    the reachability of the two defensive branches.

    Python values are modelled as follows.
    - [str] is a list of characters; characters are the code points below
      256 ([ascii]).  [len] is the number of code points, as Python's [len].
    - Python integers are [Z]; indices may be negative and slices clamp, as
      in Python.
    - A call either returns, raises, or (for the two loops whose termination
      is a theorem, not a syntactic fact) runs out of the fuel it was given:
      type [outcome].
    - [logger.warning] is modelled by a list of [warning] events threaded
      through the loops; [logger.info] has no influence on the result and is
      left out.

    The second part embeds the methods that use the splitter or stand
    beside it, [post_tweet], [_post_single_tweet], [post_tweet_thread],
    [get_latest_tweet] and [post_comment], as programs run against an
    arbitrary browser: each call to the Playwright page, to [random_delay]
    or to [login] is answered by the environment, by a value or by an
    exception, and is recorded in a trace.  The properties hold in every
    environment. *)

From Stdlib Require Import String Ascii ZArith List Bool Lia.
From Stdlib Require Import DecimalString DecimalNat FinFun.
Import ListNotations.
Local Open Scope Z_scope.

(** ** Python primitives used by the splitter *)

Module Py.

Definition str := list ascii.

Definition of_string (s : string) : str := list_ascii_of_string s.

Definition len (s : str) : Z := Z.of_nat (length s).

Definition newline : ascii := ascii_of_nat 10.

(** [str.isspace] on the code points below 256: TAB..CR, FS..US, SPACE,
    NEL (0x85) and NBSP (0xA0). *)
Definition isspace (c : ascii) : bool :=
  let n := N_of_ascii c in
  (((9 <=? n) && (n <=? 13)) || ((28 <=? n) && (n <=? 32))
   || (n =? 133) || (n =? 160))%N.

Fixpoint lstrip (s : str) : str :=
  match s with
  | [] => []
  | c :: s' => if isspace c then lstrip s' else s
  end.

Definition rstrip (s : str) : str := rev (lstrip (rev s)).

(** [s.strip()] *)
Definition strip (s : str) : str := rstrip (lstrip s).

Fixpoint str_eqb (a b : str) : bool :=
  match a, b with
  | [], [] => true
  | x :: a', y :: b' => Ascii.eqb x y && str_eqb a' b'
  | _, _ => false
  end.

(** Slice bounds are clamped to [0, len]; a negative bound counts from the
    end. *)
Definition clamp (n i : Z) : nat :=
  Z.to_nat (if i <? 0 then Z.max 0 (n + i) else Z.min i n).

(** [s[lo:hi]], a missing bound being [None]. *)
Definition slice (s : str) (lo hi : option Z) : str :=
  let l := match lo with None => 0%nat | Some i => clamp (len s) i end in
  let h := match hi with None => length s | Some j => clamp (len s) j end in
  firstn (h - l) (skipn l s).

Inductive exn : Type := IndexError.

Inductive outcome (A : Type) : Type :=
| Returned (a : A)
| Raised (e : exn)
| OutOfFuel.

Arguments Returned {A} a.
Arguments Raised {A} e.
Arguments OutOfFuel {A}.

Definition bind {A B : Type} (m : outcome A) (k : A -> outcome B) : outcome B :=
  match m with
  | Returned a => k a
  | Raised e => Raised e
  | OutOfFuel => OutOfFuel
  end.

(** [s[i]]: raises [IndexError] outside [-len, len). *)
Definition index (s : str) (i : Z) : outcome ascii :=
  let j := if i <? 0 then len s + i else i in
  if (0 <=? j) && (j <? len s) then
    match nth_error s (Z.to_nat j) with
    | Some c => Returned c
    | None => Raised IndexError
    end
  else Raised IndexError.

End Py.

Import Py.

Notation "x <- m ;; k" := (bind m (fun x => k))
  (at level 61, m at next level, right associativity).

(** ** The splitter *)

(** [clean_and_trim], line 388. *)
Definition clean_and_trim (text : str) : str := strip text.

(** [sentence_endings], line 397. *)
Definition sentence_endings : list str :=
  [ of_string ". "; of_string "! "; of_string "? ";
    ["."%char; newline]; ["!"%char; newline]; ["?"%char; newline] ].

(** The test of lines 408-410 at position [i]: [text[i-1:i+1]] is one of the
    endings. *)
Definition ending_at (text : str) (i : Z) : bool :=
  existsb (fun ending => str_eqb (slice text (Some (i - 1)) (Some (i + 1))) ending)
          sentence_endings.

(** How the [for] loop of lines 403-414 is left: by the [return i] of line
    410, or by falling out of the loop (the [break] at [i == 0], or the
    range being empty) with the current [best_split]. *)
Inductive loop_exit : Type :=
| Return (i : Z)
| Fallthrough (best_split : Z).

(** The loop [for i in range(safe_max, -1, -1)], started at [i]. The counter
    is a natural number: a negative [safe_max] gives the empty range, which
    leaves the loop like the [break] at 0 does.  In
    [best_split == 0 and text[i] == ' '] the right operand is only evaluated
    when the left one holds. *)
Fixpoint scan_back (text : str) (i : nat) (best_split : Z) : outcome loop_exit :=
  match i with
  | O => Returned (Fallthrough best_split)
  | S i' =>
      let iz := Z.of_nat i in
      if ending_at text iz then Returned (Return iz)
      else if best_split =? 0 then
             c <- index text iz ;;
             scan_back text i' (if Ascii.eqb c " " then iz else best_split)
           else scan_back text i' best_split
  end.

(** [find_sentence_boundary], lines 391-417. *)
Definition find_sentence_boundary (text : str) (max_length : Z) : outcome Z :=
  if len text <=? max_length then Returned (len text)
  else
    let safe_max := Z.min (max_length - 20) (len text) in
    e <- scan_back text (Z.to_nat safe_max) 0 ;;
    match e with
    | Return i => Returned i
    | Fallthrough best_split =>
        Returned (if 0 <? best_split then best_split
                  else Z.min (max_length - 20) (len text))
    end.

(** The two [logger.warning] calls of the splitter. *)
Inductive warning : Type :=
| NoGoodSplitPoint
| ForcingSplit (i : nat) (n : Z).

(** The [while remaining:] loop of lines 422-443 on the state
    [(tweets, remaining)], with the warnings logged so far. *)
Fixpoint while_remaining (fuel : nat) (TWEET_LIMIT : Z)
         (tweets : list str) (log : list warning) (remaining : str)
  : outcome (list str * list warning) :=
  match fuel with
  | O => OutOfFuel
  | S fuel' =>
      match remaining with
      | [] => Returned (tweets, log)
      | _ :: _ =>
          let remaining := clean_and_trim remaining in
          match remaining with
          | [] => Returned (tweets, log)
          | _ :: _ =>
              if len remaining <=? TWEET_LIMIT
              then Returned (tweets ++ [remaining], log)
              else
                split_index <- find_sentence_boundary remaining TWEET_LIMIT ;;
                let emergency := split_index =? 0 in
                let log := if emergency then log ++ [NoGoodSplitPoint] else log in
                let split_index :=
                  if emergency then Z.min (TWEET_LIMIT - 20) (len remaining)
                  else split_index in
                while_remaining fuel' TWEET_LIMIT
                  (tweets ++ [clean_and_trim (slice remaining None (Some split_index))])
                  log
                  (clean_and_trim (slice remaining (Some split_index) None))
          end
      end
  end.

(** [tweets[i] = x] for an index in range. *)
Fixpoint set_item (tweets : list str) (i : nat) (x : str) : list str :=
  match tweets, i with
  | [], _ => []
  | _ :: rest, O => x :: rest
  | t :: rest, S i' => t :: set_item rest i' x
  end.

(** [tweets.insert(i, x)]. *)
Definition insert (tweets : list str) (i : nat) (x : str) : list str :=
  firstn i tweets ++ x :: skipn i tweets.

(** The loop [for i, tweet in enumerate(tweets)] of lines 446-453.  The list
    iterator holds an index into the list object that the body mutates, so
    the piece inserted at [i + 1] is the next element visited. *)
Fixpoint verify_tweets (fuel : nat) (TWEET_LIMIT : Z) (i : nat)
         (tweets : list str) (log : list warning)
  : outcome (list str * list warning) :=
  match fuel with
  | O => OutOfFuel
  | S fuel' =>
      match nth_error tweets i with
      | None => Returned (tweets, log)
      | Some tweet =>
          if TWEET_LIMIT <? len tweet then
            let first_part := clean_and_trim (slice tweet None (Some (TWEET_LIMIT - 20))) in
            let second_part := clean_and_trim (slice tweet (Some (TWEET_LIMIT - 20)) None) in
            verify_tweets fuel' TWEET_LIMIT (S i)
              (insert (set_item tweets i first_part) (S i) second_part)
              (log ++ [ForcingSplit (S i) (len tweet)])
          else verify_tweets fuel' TWEET_LIMIT (S i) tweets log
      end
  end.

(** The body of [_split_into_tweets] with the constant [TWEET_LIMIT] and the
    number of loop iterations allowed as parameters. *)
Definition split_with (fuel : nat) (TWEET_LIMIT : Z) (content : str)
  : outcome (list str * list warning) :=
  r <- while_remaining fuel TWEET_LIMIT [] [] content ;;
  verify_tweets fuel TWEET_LIMIT 0 (fst r) (snd r).

(** [TWEET_LIMIT = 260], line 386. *)
Definition TWEET_LIMIT : Z := 260.

(** [_split_into_tweets] together with the warnings it logs.  No loop of the
    splitter runs more than [len(content) + 1] times (theorem
    [split_with_fuel] below). *)
Definition split_logged (content : str) : outcome (list str * list warning) :=
  split_with (S (length content)) TWEET_LIMIT content.

(** [_split_into_tweets], lines 383-459. *)
Definition _split_into_tweets (content : str) : outcome (list str) :=
  r <- split_logged content ;; Returned (fst r).

(** ** Vocabulary of the statements *)

Definition all_space (s : str) : bool := forallb isspace s.

(** The characters of [s] that are not whitespace, in order. *)
Definition visible (s : str) : str := filter (fun c => negb (isspace c)) s.

(** [text[i] == ' '], false where [text[i]] raises. *)
Definition space_at (text : str) (i : Z) : bool :=
  match index text i with
  | Returned c => Ascii.eqb c " "
  | _ => false
  end.

(** [text[i]] is a period, an exclamation mark or a question mark. *)
Definition punct_at (text : str) (i : Z) : bool :=
  match index text i with
  | Returned c => Ascii.eqb c "." || Ascii.eqb c "!" || Ascii.eqb c "?"
  | _ => false
  end.

(** [text[i]] is a space or a newline. *)
Definition gap_at (text : str) (i : Z) : bool :=
  match index text i with
  | Returned c => Ascii.eqb c " " || Ascii.eqb c newline
  | _ => false
  end.

(** The sentence terminator in the words of the specification: "a period,
    exclamation mark, or question mark, each optionally followed by a space
    or newline" straddling position [i], so the character before [i] is
    terminal punctuation, whatever follows it. *)
Definition spec_terminator_at (text : str) (i : Z) : bool :=
  (1 <=? i) && punct_at text (i - 1).

(** The cut rule in the words of the specification: on a text longer than
    the limit, when some position of [0, limit - 20] is a terminator in the
    sense above, the cut is the largest such position. *)
Definition spec_cut_rule (text : str) : Prop :=
  TWEET_LIMIT < len text ->
  (exists i, 0 <= i <= TWEET_LIMIT - 20 /\ spec_terminator_at text i = true) ->
  exists k,
    find_sentence_boundary text TWEET_LIMIT = Returned k
    /\ 0 <= k <= TWEET_LIMIT - 20
    /\ spec_terminator_at text k = true
    /\ forall j, 0 <= j <= TWEET_LIMIT - 20 ->
                 spec_terminator_at text j = true -> j <= k.

(** The error handling in the words of the specification, "the segmenter
    has exactly one error condition", over the calls that the source
    accepts, which pass a content and nothing else: some call fails with an
    exception. *)
Definition spec_failure_condition : Prop :=
  exists (content : str) (e : exn), _split_into_tweets content = Raised e.


(** A text of 301 characters whose only punctuation is a period at index
    100, followed by a letter. *)
Definition bare_period : str :=
  repeat "a"%char 100 ++ "."%char :: repeat "b"%char 200.

(** A text of 302 characters: three words separated by single spaces at
    indices 100 and 201. *)
Definition three_words : str :=
  repeat "a"%char 100 ++ " "%char :: repeat "b"%char 100
    ++ " "%char :: repeat "c"%char 100.

(** A text of 300 characters with sentence endings at positions 51 and 102. *)
Definition three_sentences : str :=
  repeat "a"%char 50 ++ of_string ". " ++ repeat "b"%char 49
    ++ of_string "! " ++ repeat "c"%char 197.

(** [p] holds at no position of [1, n], as a bounded search. *)
Definition none_in_range (p : Z -> bool) (n : nat) : bool :=
  forallb (fun j => negb (p (Z.of_nat j))) (seq 1 n).

(** [" ".join(tweets)] *)
Fixpoint join_spaces (tweets : list str) : str :=
  match tweets with
  | [] => []
  | [t] => t
  | t :: rest => t ++ " "%char :: join_spaces rest
  end.

(** [pieces_of tweets s]: [s] is the fragments of [tweets], in order, with
    a run of whitespace (possibly empty) before, between and after them. *)
Inductive pieces_of : list str -> str -> Prop :=
| pieces_end (w : str) :
    all_space w = true -> pieces_of [] w
| pieces_next (w t : str) (ts : list str) (rest : str) :
    all_space w = true -> pieces_of ts rest ->
    pieces_of (t :: ts) (w ++ t ++ rest).

(** The fragments that the [while remaining:] loop appends when it is
    entered with [remaining], one rule for each way through its body: the
    text trims to nothing; the trimmed text fits; the trimmed text is cut at
    the index returned by [find_sentence_boundary]. *)
Inductive splits (limit : Z) : str -> list str -> Prop :=
| splits_blank (remaining : str) :
    clean_and_trim remaining = [] ->
    splits limit remaining []
| splits_last (remaining : str) :
    clean_and_trim remaining <> [] ->
    len (clean_and_trim remaining) <= limit ->
    splits limit remaining [clean_and_trim remaining]
| splits_cut (remaining : str) (k : Z) (rest : list str) :
    limit < len (clean_and_trim remaining) ->
    find_sentence_boundary (clean_and_trim remaining) limit = Returned k ->
    splits limit
           (clean_and_trim (slice (clean_and_trim remaining) (Some k) None)) rest ->
    splits limit remaining
           (clean_and_trim (slice (clean_and_trim remaining) None (Some k)) :: rest).

(** [run_ok n s]: [s] has no run of more than 240 characters other than
    the plain space, its first run having at most [n] characters. *)
Fixpoint run_ok (n : nat) (s : str) : bool :=
  match s with
  | [] => true
  | c :: s' =>
      if Ascii.eqb c " " then run_ok 240 s'
      else match n with
           | O => false
           | S n' => run_ok n' s'
           end
  end.

(** Every 241 consecutive characters of [s] hold a plain space. *)
Definition no_long_word (s : str) : bool := run_ok 240 s.

(** [word_pieces tweets s]: [s] is the fragments of [tweets], in order, with
    whitespace only around them and at least one whitespace character
    between two consecutive fragments. *)
Inductive word_pieces : list str -> str -> Prop :=
| word_pieces_end (w : str) :
    all_space w = true -> word_pieces [] w
| word_pieces_last (w t w' : str) :
    all_space w = true -> all_space w' = true ->
    word_pieces [t] (w ++ t ++ w')
| word_pieces_next (w t : str) (c : ascii) (t' : str) (ts : list str) (rest : str) :
    all_space w = true -> isspace c = true ->
    word_pieces (t' :: ts) rest ->
    word_pieces (t :: t' :: ts) (w ++ t ++ c :: rest).

(** Sum of the lengths of the elements of a list of strings. *)
Definition total_length (tweets : list str) : nat :=
  list_sum (map (@length ascii) tweets).

(** ** The browser session

    The methods that post drive a Playwright page.  The page, [random_delay]
    (module [utils]) and [self.login()] are the environment of the model: a
    call to one of them is answered by the environment, with a value or
    with an exception, and the answer may depend on everything that
    happened before.  A method is a program that, run in an environment,
    gives its result and the trace of the calls it made, in order.
    [logger] calls have no influence on the result and are left out. *)

(** What a call returns: [None], a boolean, a string, or an element
    handle. *)
Inductive value : Type :=
| VNone
| VBool (b : bool)
| VStr (s : str)
| VHandle.

(** [bool(v)] *)
Definition truthy (v : value) : bool :=
  match v with
  | VNone => false
  | VBool b => b
  | VStr [] => false
  | VStr (_ :: _) => true
  | VHandle => true
  end.

(** Keyword arguments of [ElementHandle.click]: none, [delay=ms],
    [force=True]. *)
Inductive click_mode : Type :=
| Plain
| WithDelay (ms : Z)
| Forced.

(** The JavaScript texts passed to [page.evaluate]: at lines 518-555 (it
    clicks a compose button), 617-645 (it clicks a post button) and 741-755
    (it clicks an add button). *)
Inductive script : Type :=
| ComposeButtonScript
| PostButtonScript
| AddButtonScript.

Inductive call : Type :=
| Login                                          (* self.login() *)
| Goto (url : str)                               (* page.goto(url, wait_until="domcontentloaded") *)
| RandomDelay (lo hi : Z)                        (* random_delay(lo, hi) *)
| QuerySelector (selector : str)                 (* page.query_selector(selector) *)
| Click (selector : str)                         (* page.click(selector) *)
| Fill (selector text : str)                     (* page.fill(selector, text) *)
| WaitForSelector (selector : str) (timeout : Z) (* page.wait_for_selector(selector, state="visible", timeout=timeout) *)
| HandleClick (selector : str) (mode : click_mode)
                                                 (* click on the handle that wait_for_selector(selector) returned *)
| Evaluate (js : script)                         (* page.evaluate(js) *)
| Screenshot (path : str)                        (* page.screenshot(path=path) *)
| PageUrl                                        (* page.url *)
| WaitForTweet (selector : str) (timeout : Z)    (* page.wait_for_selector(selector, timeout=timeout) *)
| HandleQuerySelector (handle selector : str)    (* query_selector(selector) on the handle found by handle *)
| GetAttribute (handle selector name : str)      (* get_attribute(name) on the handle found by selector under handle *)
| InnerText (handle : str).                      (* inner_text() on the handle found by handle *)

Inductive reply : Type :=
| Returns (v : value)
| Raises.

Definition trace := list (call * reply).

Definition env := trace -> call -> reply.

Inductive result (A : Type) : Type :=
| Done (a : A)
| Exception.

Arguments Done {A} a.
Arguments Exception {A}.

Definition prog (A : Type) : Type := env -> trace -> result A * trace.

Definition ret {A : Type} (a : A) : prog A := fun _ h => (Done a, h).

Definition pbind {A B : Type} (m : prog A) (k : A -> prog B) : prog B :=
  fun e h =>
    match m e h with
    | (Done a, h') => k a e h'
    | (Exception, h') => (Exception, h')
    end.

Notation "x <~ m ;; k" := (pbind m (fun x => k))
  (at level 61, m at next level, right associativity).

(** A call to the environment. *)
Definition perform (c : call) : prog value :=
  fun e h =>
    match e h c with
    | Returns v => (Done v, h ++ [(c, Returns v)])
    | Raises => (Exception, h ++ [(c, Raises)])
    end.

(** [raise Exception(...)], and any operation that raises by itself. *)
Definition raise {A : Type} : prog A := fun _ h => (Exception, h).

(** [try: body  except Exception: handler] (also the bare [except:]). *)
Definition try_except {A : Type} (body handler : prog A) : prog A :=
  fun e h =>
    match body e h with
    | (Done a, h') => (Done a, h')
    | (Exception, h') => handler e h'
    end.

(** A run from the empty trace. *)
Definition run {A : Type} (p : prog A) (e : env) : result A * trace := p e [].

(** [self.login()], lines 116-381.  Its body is not modelled; it holds no
    [return] statement, so a call that does not raise returns [None]. *)
Definition login : prog value := _ <~ perform Login ;; ret VNone.

(** The guard that opens [post_tweet], [post_tweet_thread],
    [get_latest_tweet] and [post_comment]:
    [if not self.is_logged_in: if not self.login(): return False]
    ([return None] in [get_latest_tweet]).
    The result tells whether the method goes on. *)
Definition logged_in_or_login (is_logged_in : bool) : prog bool :=
  if is_logged_in then ret true
  else (r <~ login ;; ret (truthy r)).

Definition dq : ascii := ascii_of_nat 34.

(** [s] between double quotes. *)
Definition quoted (s : string) : str := dq :: of_string s ++ [dq].

(** The selector [[data-testid="s"]]. *)
Definition testid (s : string) : str :=
  of_string "[data-testid=" ++ quoted s ++ of_string "]".

(** The selector [div[aria-label="s"]]. *)
Definition div_label (s : string) : str :=
  of_string "div[aria-label=" ++ quoted s ++ of_string "]".

(** The selector [div[role="button"]:has-text("s")]. *)
Definition button_text (s : string) : str :=
  of_string "div[role=" ++ quoted "button" ++ of_string "]:has-text("
    ++ quoted s ++ of_string ")".

(** [str(n)] for a non-negative integer. *)
Definition decimal (n : nat) : str :=
  of_string (NilEmpty.string_of_uint (Nat.to_uint n)).

(** The loop used three times by [post_comment]:
    [for selector in selectors: try: if page.query_selector(selector):
    action(selector); flag = True; break  except Exception: log].
    The result is the flag. *)
Fixpoint probe (action : str -> call) (selectors : list str) : prog bool :=
  match selectors with
  | [] => ret false
  | selector :: rest =>
      hit <~ try_except
               (found <~ perform (QuerySelector selector) ;;
                if truthy found
                then (_ <~ perform (action selector) ;; ret true)
                else ret false)
               (ret false) ;;
      if hit then ret true else probe action rest
  end.

Definition reply_selectors : list str :=
  [ testid "reply"; div_label "Reply"; button_text "Reply" ].

Definition textarea_selectors : list str :=
  [ testid "tweetTextarea_0";
    of_string "div[role=" ++ quoted "textbox" ++ of_string "]";
    of_string "div[contenteditable=" ++ quoted "true" ++ of_string "]" ].

Definition post_selectors : list str :=
  [ testid "tweetButton";
    of_string "div[data-testid=" ++ quoted "tweetButtonInline" ++ of_string "]";
    button_text "Reply"; button_text "Post" ].

(** [post_comment], lines 857-946. *)
Definition post_comment (is_logged_in : bool) (tweet_url comment : str)
  : prog bool :=
  go <~ logged_in_or_login is_logged_in ;;
  if negb go then ret false
  else
    try_except
      (_ <~ perform (Goto tweet_url) ;;
       _ <~ perform (RandomDelay 3 5) ;;
       reply_clicked <~ probe Click reply_selectors ;;
       if negb reply_clicked then ret false
       else
         _ <~ perform (RandomDelay 2 3) ;;
         comment_entered <~ probe (fun selector => Fill selector comment)
                                  textarea_selectors ;;
         if negb comment_entered then ret false
         else
           _ <~ perform (RandomDelay 2 3) ;;
           posted <~ probe Click post_selectors ;;
           if negb posted then ret false
           else
             _ <~ perform (RandomDelay 3 5) ;;
             ret true)
      (ret false).

(** [f'[data-testid="tweetTextarea_{n}"]'] *)
Definition tweet_textarea (n : nat) : str :=
  of_string "[data-testid=" ++ dq :: of_string "tweetTextarea_" ++ decimal n
    ++ dq :: of_string "]".

(** [f"thread_tweet_{i}_error.png"] *)
Definition thread_error_png (i : nat) : str :=
  of_string "thread_tweet_" ++ decimal i ++ of_string "_error.png".

Definition add_button_selectors : list str :=
  [ testid "addButton"; div_label "Add"; div_label "Add post";
    button_text "Add" ].

(** The loop over [add_button_selectors], lines 722-739; the result is
    [add_button_found]. *)
Fixpoint find_add_button (selectors : list str) : prog bool :=
  match selectors with
  | [] => ret false
  | selector :: rest =>
      clicked <~ try_except
                   (add_button <~ perform (WaitForSelector selector 5000) ;;
                    if truthy add_button
                    then try_except
                           (_ <~ perform (HandleClick selector (WithDelay 100)) ;;
                            ret true)
                           (try_except
                              (_ <~ perform (HandleClick selector Forced) ;;
                               ret true)
                              (ret false))
                    else ret false)
                   (ret false) ;;
      if clicked then ret true else find_add_button rest
  end.

(** The body of the loop of lines 708-775 for the tweet number [i]:
    [Some b] when the method returns [b], [None] when the loop goes on. *)
Definition add_tweet (i : nat) (tweet_content : str) : prog (option bool) :=
  try_except
    (add_button_found <~ find_add_button add_button_selectors ;;
     add_button_found <~ (if negb add_button_found
                          then (js_result <~ perform (Evaluate AddButtonScript) ;;
                                ret (truthy js_result))
                          else ret add_button_found) ;;
     if negb add_button_found then raise
     else
       _ <~ perform (RandomDelay 2 3) ;;
       let next_textarea_selector := tweet_textarea (i - 1) in
       _ <~ perform (WaitForSelector next_textarea_selector 5000) ;;
       _ <~ perform (Fill next_textarea_selector tweet_content) ;;
       _ <~ perform (RandomDelay 2 3) ;;
       ret None)
    (_ <~ perform (Screenshot (thread_error_png i)) ;;
     ret (Some false)).

(** [for i, tweet_content in enumerate(contents, i)] with that body. *)
Fixpoint add_tweets (i : nat) (contents : list str) : prog (option bool) :=
  match contents with
  | [] => ret None
  | tweet_content :: rest =>
      r <~ add_tweet i tweet_content ;;
      match r with
      | Some b => ret (Some b)
      | None => add_tweets (S i) rest
      end
  end.

Definition compose_url : str := of_string "https://twitter.com/compose/tweet".

(** [post_tweet_thread], lines 674-794.  [content_list[0]] raises
    [IndexError] on the empty list; the [return True] of line 794 is reached
    when the last [try] ends without returning. *)
Definition post_tweet_thread (is_logged_in : bool) (content_list : list str)
  : prog bool :=
  go <~ logged_in_or_login is_logged_in ;;
  if negb go then ret false
  else
    r <~ try_except
           (_ <~ perform (Goto compose_url) ;;
            _ <~ perform (RandomDelay 3 5) ;;
            match content_list with
            | [] => raise
            | first_tweet_content :: others =>
                _ <~ perform (WaitForSelector (testid "tweetTextarea_0") 10000) ;;
                _ <~ perform (RandomDelay 1 2) ;;
                entered <~ try_except
                             (_ <~ perform (Fill (testid "tweetTextarea_0")
                                                 first_tweet_content) ;;
                              _ <~ perform (RandomDelay 2 3) ;;
                              ret true)
                             (ret false) ;;
                if negb entered then ret (Some false)
                else
                  r <~ add_tweets 2 others ;;
                  match r with
                  | Some b => ret (Some b)
                  | None =>
                      try_except
                        (post_button <~ perform (WaitForSelector
                                                   (testid "tweetButton") 5000) ;;
                         if truthy post_button
                         then
                           _ <~ perform (HandleClick (testid "tweetButton") Plain) ;;
                           _ <~ perform (RandomDelay 5 8) ;;
                           ret (Some true)
                         else ret None)
                        (ret (Some false))
                  end
            end)
           (ret (Some false)) ;;
    match r with
    | Some b => ret b
    | None => ret true
    end.

(** [s.startswith(prefix)] *)
Fixpoint startswith (s prefix : str) : bool :=
  match prefix, s with
  | [], _ => true
  | _ :: _, [] => false
  | p :: prefix', c :: s' => Ascii.eqb c p && startswith s' prefix'
  end.

(** [needle in s], for two strings. *)
Fixpoint contains (needle s : str) : bool :=
  startswith s needle
  || match s with
     | [] => false
     | _ :: s' => contains needle s'
     end.

(** [v.startswith(prefix)]: [AttributeError] when [v] is no string. *)
Definition value_startswith (v : value) (prefix : str) : prog bool :=
  match v with
  | VStr s => ret (startswith s prefix)
  | VNone | VBool _ | VHandle => raise
  end.

(** [needle in v]: [TypeError] when [v] is no string. *)
Definition value_contains (needle : str) (v : value) : prog bool :=
  match v with
  | VStr s => ret (contains needle s)
  | VNone | VBool _ | VHandle => raise
  end.

(** The selector [tag[name="v"]]. *)
Definition attr (tag name v : string) : str :=
  of_string tag ++ of_string "[" ++ of_string name ++ of_string "="
    ++ quoted v ++ of_string "]".

Definition compose_selectors : list str :=
  [ attr "a" "href" "/compose/tweet";
    attr "a" "data-testid" "SideNav_NewTweet_Button";
    attr "a" "aria-label" "Post";
    attr "a" "aria-label" "Tweet";
    div_label "Tweet";
    div_label "Post" ].

Definition content_selectors : list str :=
  [ attr "div" "role" "textbox" ++ testid "tweetTextarea_0";
    attr "div" "contenteditable" "true" ++ testid "tweetTextarea_0";
    attr "div" "role" "textbox";
    attr "div" "contenteditable" "true" ].

Definition single_post_selectors : list str :=
  [ attr "div" "data-testid" "tweetButtonInline";
    attr "div" "data-testid" "tweetButton";
    button_text "Tweet";
    button_text "Post" ].

Definition home_url : str := of_string "https://twitter.com/home".

(** The condition of line 482,
    [not page.url.startswith("https://twitter.com/home") and not
    page.url.startswith("https://x.com/home")]: the second operand, with its
    own read of [page.url], is evaluated only when the first holds. *)
Definition away_from_home : prog bool :=
  url <~ perform PageUrl ;;
  at_twitter <~ value_startswith url home_url ;;
  if negb at_twitter
  then
    url <~ perform PageUrl ;;
    at_x <~ value_startswith url (of_string "https://x.com/home") ;;
    ret (negb at_x)
  else ret false.

(** The fallback of lines 515-560 and 614-650:
    [if not clicked: js_result = page.evaluate(js);
     if "Clicked" in js_result: clicked = True].  The result is the flag. *)
Definition or_by_script (clicked : bool) (js : script) : prog bool :=
  if negb clicked
  then
    js_result <~ perform (Evaluate js) ;;
    found <~ value_contains (of_string "Clicked") js_result ;;
    if found then ret true else ret clicked
  else ret clicked.

(** [_post_single_tweet], lines 477-672.  The f-string of the log at line
    483 reads [page.url] once more. *)
Definition _post_single_tweet (content : str) : prog bool :=
  try_except
    (away <~ away_from_home ;;
     _ <~ (if away
           then
             _ <~ perform PageUrl ;;
             _ <~ perform (Goto home_url) ;;
             _ <~ perform (RandomDelay 2 4) ;;
             ret tt
           else ret tt) ;;
     _ <~ perform (Screenshot (of_string "home_before_compose.png")) ;;
     compose_clicked <~ probe Click compose_selectors ;;
     compose_clicked <~ or_by_script compose_clicked ComposeButtonScript ;;
     if negb compose_clicked
     then
       _ <~ perform (Screenshot (of_string "compose_button_not_found.png")) ;;
       ret false
     else
       _ <~ perform (RandomDelay 2 4) ;;
       _ <~ perform (Screenshot (of_string "compose_dialog.png")) ;;
       content_entered <~ probe (fun selector => Fill selector content)
                                content_selectors ;;
       if negb content_entered
       then
         _ <~ perform (Screenshot (of_string "tweet_content_not_entered.png")) ;;
         ret false
       else
         _ <~ perform (RandomDelay 2 4) ;;
         post_clicked <~ probe Click single_post_selectors ;;
         post_clicked <~ or_by_script post_clicked PostButtonScript ;;
         if negb post_clicked
         then
           _ <~ perform (Screenshot (of_string "post_button_not_found.png")) ;;
           ret false
         else
           _ <~ perform (RandomDelay 4 8) ;;
           _ <~ perform (Screenshot (of_string "after_posting_tweet.png")) ;;
           ret true)
    (_ <~ perform (Screenshot (of_string "tweet_error.png")) ;;
     ret false).

(** [post_tweet], lines 461-475. *)
Definition post_tweet (is_logged_in : bool) (content : str) : prog bool :=
  go <~ logged_in_or_login is_logged_in ;;
  if negb go then ret false
  else if 280 <? len content then
         match _split_into_tweets content with
         | Returned tweet_parts => post_tweet_thread is_logged_in tweet_parts
         | Raised _ | OutOfFuel => raise
         end
       else _post_single_tweet content.

(** The dictionary returned by [get_latest_tweet]. *)
Record tweet_info : Type :=
  { url : value; text : value; username : str }.

(** [f"https://twitter.com{v}"]; it is reached with a string only, since
    [v.startswith] has raised otherwise. *)
Definition prepend_site (v : value) : prog value :=
  match v with
  | VStr href => ret (VStr (of_string "https://twitter.com" ++ href))
  | VNone | VBool _ | VHandle => raise
  end.

Definition tweet_selectors : list str :=
  [ attr "article" "data-testid" "tweet";
    testid "tweet";
    attr "article" "role" "article" ].

(** The selector [a[href*="/status/"]]. *)
Definition status_link : str :=
  of_string "a[href*=" ++ quoted "/status/" ++ of_string "]".

(** The loop of lines 819-827; the result is the selector that found the
    tweet element, when [tweet_found] is set. *)
Fixpoint find_tweet (selectors : list str) : prog (option str) :=
  match selectors with
  | [] => ret None
  | selector :: rest =>
      found <~ try_except
                 (tweet_element <~ perform (WaitForTweet selector 10000) ;;
                  ret (truthy tweet_element))
                 (ret false) ;;
      if found then ret (Some selector) else find_tweet rest
  end.

(** [get_latest_tweet], lines 796-855. *)
Definition get_latest_tweet (is_logged_in : bool) (user : str)
  : prog (option tweet_info) :=
  go <~ logged_in_or_login is_logged_in ;;
  if negb go then ret None
  else
    try_except
      (let profile_url := of_string "https://twitter.com/" ++ user in
       _ <~ perform (Goto profile_url) ;;
       _ <~ perform (RandomDelay 3 5) ;;
       tweet_element <~ find_tweet tweet_selectors ;;
       match tweet_element with
       | None => ret None
       | Some element =>
           tweet_link <~ perform (HandleQuerySelector element status_link) ;;
           if negb (truthy tweet_link) then ret None
           else
             tweet_url <~ perform (GetAttribute element status_link
                                                (of_string "href")) ;;
             absolute <~ value_startswith tweet_url (of_string "http") ;;
             tweet_url <~ (if negb absolute
                           then prepend_site tweet_url
                           else ret tweet_url) ;;
             tweet_text <~ perform (InnerText element) ;;
             ret (Some {| url := tweet_url; text := tweet_text;
                          username := user |})
       end)
      (ret None).

(** The calls of a trace that returned, in order. *)
Fixpoint returned (t : trace) : list call :=
  match t with
  | [] => []
  | (c, Returns _) :: t' => c :: returned t'
  | (_, Raises) :: t' => returned t'
  end.

(** The calls that act on the page: clicks and fills. *)
Definition is_action (c : call) : bool :=
  match c with
  | Click _ | Fill _ _ | HandleClick _ _ => true
  | _ => false
  end.

(** The clicks and fills of a trace that returned, in order. *)
Definition actions (t : trace) : list call := filter is_action (returned t).

(** The [(selector, text)] of the fills of a trace that returned, in
    order. *)
Fixpoint entered (t : trace) : list (str * str) :=
  match t with
  | [] => []
  | (Fill selector text, Returns _) :: t' => (selector, text) :: entered t'
  | _ :: t' => entered t'
  end.

(** The clicks on a handle, with no keyword argument, that returned: only
    the post button of a thread is clicked so. *)
Fixpoint plain_clicks (t : trace) : list str :=
  match t with
  | [] => []
  | (HandleClick selector Plain, Returns _) :: t' => selector :: plain_clicks t'
  | _ :: t' => plain_clicks t'
  end.

(** What a thread must enter: the [n]-th tweet, counting from [i], in the
    textarea number [n]. *)
Fixpoint thread_fills (i : nat) (contents : list str) : list (str * str) :=
  match contents with
  | [] => []
  | content :: rest => (tweet_textarea i, content) :: thread_fills (S i) rest
  end.

(** The page actions of a [post_comment] that goes to its end. *)
Definition comment_steps (comment x y z : str) : list call :=
  [Click x; Fill y comment; Click z].

(** [stops_at_login m failure e]: in the environment [e] the only call of
    the method [m] is [login()]; the method raises when the login raises and
    returns [failure] when the login returns. *)
Definition stops_at_login {A : Type} (m : prog A) (failure : A) (e : env) : Prop :=
  match e [] Login with
  | Raises => run m e = (Exception, [(Login, Raises)])
  | Returns v => run m e = (Done failure, [(Login, Returns v)])
  end.

(** A page where every call returns a handle. *)
Definition obliging : env := fun _ _ => Returns VHandle.

(** A page that shows the home feed, where every selector is found and
    the first tweet links to [/someone/status/1]. *)
Definition sample_page : env :=
  fun _ c =>
    match c with
    | PageUrl => Returns (VStr home_url)
    | GetAttribute _ _ _ => Returns (VStr (of_string "/someone/status/1"))
    | InnerText _ => Returns (VStr (of_string "Hello"))
    | Evaluate _ => Returns (VStr (of_string "Clicked it"))
    | _ => Returns VHandle
    end.

(** [runs p Q]: in every environment and from every trace, [p] extends the
    trace by some calls [t] and gives a result [r] with [Q r t]. *)
Definition runs {A : Type} (p : prog A) (Q : result A -> trace -> Prop) : Prop :=
  forall (e : env) (h : trace), exists r t, p e h = (r, h ++ t) /\ Q r t.

(** ** Whitespace and trimming *)

Lemma visible_app (a b : str) : visible (a ++ b) = visible a ++ visible b.
Proof. apply filter_app. Qed.

Lemma visible_all_space (w : str) : all_space w = true -> visible w = [].
Proof.
  induction w as [|c w IH]; simpl; [reflexivity|].
  intros H. apply andb_prop in H as [Hc Hw].
  rewrite Hc. simpl. auto.
Qed.

Lemma all_space_app (a b : str) :
  all_space (a ++ b) = all_space a && all_space b.
Proof. apply forallb_app. Qed.

Lemma all_space_rev (w : str) : all_space (rev w) = all_space w.
Proof.
  induction w as [|c w IH]; simpl; [reflexivity|].
  rewrite all_space_app, IH. simpl. rewrite andb_true_r. apply andb_comm.
Qed.

Lemma lstrip_split (s : str) :
  exists w, s = w ++ lstrip s /\ all_space w = true.
Proof.
  induction s as [|c s [w [E W]]]; simpl.
  - exists []. auto.
  - destruct (isspace c) eqn:Hc.
    + exists (c :: w). simpl. rewrite Hc, W. split; [congruence | reflexivity].
    + exists []. auto.
Qed.

Lemma lstrip_head (s : str) c r : lstrip s = c :: r -> isspace c = false.
Proof.
  induction s as [|d s IH]; simpl; [discriminate|].
  destruct (isspace d) eqn:Hd; [exact IH|].
  intros E. injection E as -> _. exact Hd.
Qed.

Lemma lstrip_all_space (s : str) : all_space s = true -> lstrip s = [].
Proof.
  induction s as [|c s IH]; simpl; [reflexivity|].
  intros H. apply andb_prop in H as [Hc Hs]. rewrite Hc. auto.
Qed.

Lemma rstrip_split (s : str) :
  exists w, s = rstrip s ++ w /\ all_space w = true.
Proof.
  unfold rstrip. destruct (lstrip_split (rev s)) as [w [E W]].
  exists (rev w). split.
  - rewrite <- rev_app_distr, <- E. symmetry. apply rev_involutive.
  - rewrite all_space_rev. exact W.
Qed.

(** Trimming only removes whitespace, and only at the two ends. *)
Lemma strip_split (s : str) :
  exists w1 w2,
    s = w1 ++ strip s ++ w2 /\ all_space w1 = true /\ all_space w2 = true.
Proof.
  unfold strip.
  destruct (lstrip_split s) as [w1 [E1 W1]].
  destruct (rstrip_split (lstrip s)) as [w2 [E2 W2]].
  exists w1, w2. repeat split; try assumption.
  rewrite <- E2. exact E1.
Qed.

Lemma strip_head (s : str) c r : strip s = c :: r -> isspace c = false.
Proof.
  unfold strip. intros E.
  destruct (rstrip_split (lstrip s)) as [w [E2 _]].
  rewrite E in E2. simpl in E2. exact (lstrip_head _ _ _ E2).
Qed.

Lemma strip_length (s : str) : (length (strip s) <= length s)%nat.
Proof.
  destruct (strip_split s) as [w1 [w2 [E _]]].
  rewrite E at 2. rewrite !length_app. lia.
Qed.

Lemma strip_len (s : str) : len (strip s) <= len s.
Proof. unfold len. pose proof (strip_length s). lia. Qed.

Lemma visible_strip (s : str) : visible (strip s) = visible s.
Proof.
  destruct (strip_split s) as [w1 [w2 [E [W1 W2]]]].
  rewrite E at 2. rewrite !visible_app.
  rewrite (visible_all_space _ W1), (visible_all_space _ W2).
  simpl. now rewrite app_nil_r.
Qed.

Lemma strip_all_space (s : str) : all_space s = true -> strip s = [].
Proof.
  intros H. unfold strip. rewrite (lstrip_all_space _ H). reflexivity.
Qed.

Lemma strip_nil_all_space (s : str) : strip s = [] -> all_space s = true.
Proof.
  intros H. destruct (strip_split s) as [w1 [w2 [E [W1 W2]]]].
  rewrite E, H. simpl. rewrite all_space_app, W1, W2. reflexivity.
Qed.

(** ** Slices *)

Lemma slice_upto (s : str) (k : Z) :
  slice s None (Some k) = firstn (clamp (len s) k) s.
Proof. unfold slice. simpl. now rewrite Nat.sub_0_r. Qed.

Lemma slice_from (s : str) (k : Z) :
  slice s (Some k) None = skipn (clamp (len s) k) s.
Proof.
  unfold slice. apply firstn_all2. rewrite length_skipn. lia.
Qed.

(** [text[:k] + text[k:] == text], for every integer [k]. *)
Lemma slice_cut (s : str) (k : Z) :
  slice s None (Some k) ++ slice s (Some k) None = s.
Proof. rewrite slice_upto, slice_from. apply firstn_skipn. Qed.

Lemma clamp_inside (n k : Z) : 0 <= k <= n -> clamp n k = Z.to_nat k.
Proof.
  intros H. unfold clamp.
  destruct (k <? 0) eqn:E; [apply Z.ltb_lt in E; lia|].
  f_equal. lia.
Qed.

Lemma slice_upto_len (s : str) (k : Z) :
  0 <= k <= len s -> len (slice s None (Some k)) = k.
Proof.
  intros H. rewrite slice_upto, clamp_inside by assumption.
  unfold len in *. rewrite length_firstn. lia.
Qed.

Lemma slice_from_len (s : str) (k : Z) :
  0 <= k <= len s -> len (slice s (Some k) None) = len s - k.
Proof.
  intros H. rewrite slice_from, clamp_inside by assumption.
  unfold len in *. rewrite length_skipn. lia.
Qed.

(** ** The backward scan *)

Lemma index_inside (s : str) (i : Z) :
  0 <= i < len s -> exists c, index s i = Returned c.
Proof.
  intros H. unfold index.
  destruct (i <? 0) eqn:E; [apply Z.ltb_lt in E; lia|].
  replace ((0 <=? i) && (i <? len s)) with true
    by (symmetry; apply andb_true_intro; split;
        [apply Z.leb_le | apply Z.ltb_lt]; lia).
  destruct (nth_error s (Z.to_nat i)) as [c|] eqn:N; [eauto|].
  apply nth_error_None in N. unfold len in H. lia.
Qed.

(** What the loop of [find_sentence_boundary] computes when started at an
    index inside the text: the first sentence ending met going down, else
    the first space met going down (unless a fallback was already held). *)
Lemma scan_back_spec (text : str) (i : nat) :
  forall best, (i < length text)%nat ->
  (exists k, scan_back text i best = Returned (Return k)
             /\ 1 <= k <= Z.of_nat i
             /\ ending_at text k = true
             /\ forall j, k < j <= Z.of_nat i -> ending_at text j = false)
  \/
  (exists b, scan_back text i best = Returned (Fallthrough b)
             /\ (forall j, 1 <= j <= Z.of_nat i -> ending_at text j = false)
             /\ if best =? 0
                then (b = 0 /\ forall j, 1 <= j <= Z.of_nat i -> space_at text j = false)
                     \/ (1 <= b <= Z.of_nat i /\ space_at text b = true
                         /\ forall j, b < j <= Z.of_nat i -> space_at text j = false)
                else b = best).
Proof.
  induction i as [|i IH]; intros best Hi.
  - right. exists best. simpl. split; [reflexivity|]. split; [intros; lia|].
    destruct (best =? 0) eqn:E; [|reflexivity].
    apply Z.eqb_eq in E. left. split; [assumption | intros; lia].
  - cbn [scan_back]. set (iz := Z.of_nat (S i)).
    assert (Hiz : iz = Z.of_nat i + 1) by (unfold iz; lia).
    destruct (ending_at text iz) eqn:En.
    { left. exists iz. repeat split; try lia; try assumption; try (intros; lia). }
    assert (Hstep : forall j, 1 <= j <= iz ->
                    (forall j', 1 <= j' <= Z.of_nat i -> ending_at text j' = false) ->
                    ending_at text j = false).
    { intros j Hj Hall. destruct (Z.eq_dec j iz) as [->|]; [assumption|].
      apply Hall. lia. }
    destruct (best =? 0) eqn:Eb.
    + destruct (index_inside text iz) as [c Hc]; [unfold len; lia|].
      rewrite Hc. cbn [bind].
      assert (Hsp : space_at text iz = Ascii.eqb c " ")
        by (unfold space_at; now rewrite Hc).
      destruct (Ascii.eqb c " ") eqn:Ec.
      * destruct (IH iz ltac:(lia)) as [[k [R [Hk [Ek Hm]]]]|[b [R [Hall Hb]]]].
        -- left. exists k. repeat split; try lia; try assumption.
           intros j Hj. destruct (Z.eq_dec j iz) as [->|]; [assumption|].
           apply Hm. lia.
        -- right. exists b. split; [assumption|]. split; [intros; eauto|].
           replace (iz =? 0) with false in Hb by (symmetry; apply Z.eqb_neq; lia).
           subst b. right. repeat split; try lia; try assumption; try (intros; lia).
      * destruct (IH best ltac:(lia)) as [[k [R [Hk [Ek Hm]]]]|[b [R [Hall Hb]]]].
        -- left. exists k. repeat split; try lia; try assumption.
           intros j Hj. destruct (Z.eq_dec j iz) as [->|]; [assumption|].
           apply Hm. lia.
        -- right. exists b. split; [assumption|]. split; [intros; eauto|].
           rewrite Eb in Hb. destruct Hb as [[-> Hn]|[Hb [Sb Hn]]].
           ++ left. split; [reflexivity|]. intros j Hj.
              destruct (Z.eq_dec j iz) as [->|]; [assumption|]. apply Hn. lia.
           ++ right. repeat split; try lia; try assumption. intros j Hj.
              destruct (Z.eq_dec j iz) as [->|]; [assumption|]. apply Hn. lia.
    + destruct (IH best ltac:(lia)) as [[k [R [Hk [Ek Hm]]]]|[b [R [Hall Hb]]]].
      * left. exists k. repeat split; try lia; try assumption.
        intros j Hj. destruct (Z.eq_dec j iz) as [->|]; [assumption|].
        apply Hm. lia.
      * right. exists b. split; [assumption|]. split; [intros; eauto|].
        rewrite Eb in Hb. exact Hb.
Qed.

(** On a text longer than [max_length] the search returns a cut in
    [1, max_length - 20]: the highest sentence ending of that range, else
    the highest space of that range, else [max_length - 20] itself. *)
Lemma find_sentence_boundary_long (text : str) (max_length : Z) :
  20 < max_length -> max_length < len text ->
  exists k,
    find_sentence_boundary text max_length = Returned k
    /\ 1 <= k <= max_length - 20
    /\ ((ending_at text k = true
         /\ forall j, k < j <= max_length - 20 -> ending_at text j = false)
        \/ ((forall j, 1 <= j <= max_length - 20 -> ending_at text j = false)
            /\ ((space_at text k = true
                 /\ forall j, k < j <= max_length - 20 -> space_at text j = false)
                \/ (k = max_length - 20
                    /\ forall j, 1 <= j <= max_length - 20 -> space_at text j = false)))).
Proof.
  intros HL Hlen. unfold find_sentence_boundary.
  replace (len text <=? max_length) with false by (symmetry; apply Z.leb_gt; lia).
  replace (Z.min (max_length - 20) (len text)) with (max_length - 20) by lia.
  assert (Hn : Z.of_nat (Z.to_nat (max_length - 20)) = max_length - 20) by lia.
  destruct (scan_back_spec text (Z.to_nat (max_length - 20)) 0)
    as [[k [R [Hk [Ek Hm]]]]|[b [R [Hall Hb]]]];
    [unfold len in Hlen; lia | |]; rewrite R; cbn [bind]; rewrite Hn in *.
  - exists k. split; [reflexivity|]. split; [lia|]. left. auto.
  - change (0 =? 0) with true in Hb. cbv iota in Hb.
    destruct Hb as [[-> Hn0]|[Hb [Sb Hn0]]].
    + exists (max_length - 20). split; [reflexivity|]. split; [lia|]. right. auto.
    + exists b.
      replace (0 <? b) with true by (symmetry; apply Z.ltb_lt; lia).
      split; [reflexivity|]. split; [lia|]. right. auto.
Qed.

(** ** The main loop *)

Lemma pieces_space_left (w : str) (ts : list str) (s : str) :
  all_space w = true -> pieces_of ts s -> pieces_of ts (w ++ s).
Proof.
  intros W P. destruct P as [w' W'|w' t ts rest W' P].
  - apply pieces_end. now rewrite all_space_app, W, W'.
  - rewrite app_assoc. apply pieces_next; [|assumption].
    now rewrite all_space_app, W, W'.
Qed.

Lemma pieces_space_right (w : str) (ts : list str) (s : str) :
  all_space w = true -> pieces_of ts s -> pieces_of ts (s ++ w).
Proof.
  intros W P. induction P as [w' W'|w' t ts rest W' P IH].
  - apply pieces_end. now rewrite all_space_app, W', W.
  - rewrite <- !app_assoc. apply pieces_next; assumption.
Qed.

Lemma pieces_visible (ts : list str) (s : str) :
  pieces_of ts s -> visible (concat ts) = visible s.
Proof.
  induction 1 as [w W|w t ts rest W P IH]; simpl.
  - symmetry. now apply visible_all_space.
  - rewrite !visible_app, IH, (visible_all_space _ W). reflexivity.
Qed.

Lemma strip_nonempty (c : ascii) (s : str) :
  isspace c = false -> strip (c :: s) <> [].
Proof.
  intros Hc E. apply strip_nil_all_space in E. simpl in E.
  rewrite Hc in E. discriminate.
Qed.

(** One run of the loop from a state [(tweets, remaining)] with enough
    fuel: it returns, logs nothing, and appends fragments that are non-empty,
    within the limit, and make up [remaining]. *)
Lemma while_remaining_spec (limit : Z) (Hlimit : 20 < limit) (fuel : nat) :
  forall remaining tweets log,
    (length remaining < fuel)%nat ->
    exists new,
      while_remaining fuel limit tweets log remaining = Returned (tweets ++ new, log)
      /\ Forall (fun t => 1 <= len t <= limit) new
      /\ pieces_of new remaining
      /\ (length new <= length remaining)%nat.
Proof.
  induction fuel as [|fuel IH]; intros remaining tweets log Hfuel; [lia|].
  cbn [while_remaining].
  destruct remaining as [|c0 r0].
  { exists []. rewrite app_nil_r.
    split; [reflexivity|]. split; [constructor|]. split; [|simpl; lia].
    now apply pieces_end. }
  set (content := c0 :: r0) in *.
  destruct (strip_split content) as [w1 [w2 [E [W1 W2]]]].
  pose proof (strip_length content) as Hsl.
  cbv zeta. unfold clean_and_trim.
  destruct (strip content) as [|c r] eqn:Es.
  { exists []. rewrite app_nil_r.
    split; [reflexivity|]. split; [constructor|]. split; [|simpl; lia].
    apply pieces_end. now apply strip_nil_all_space. }
  set (text := c :: r) in *.
  assert (Hc : isspace c = false) by (eapply strip_head; exact Es).
  destruct (len text <=? limit) eqn:Hfit.
  { apply Z.leb_le in Hfit. exists [text].
    split; [reflexivity|]. split; [|split].
    - constructor; [|constructor]. unfold len, text in *. simpl length in *. lia.
    - rewrite E. apply pieces_next; [assumption|]. now apply pieces_end.
    - unfold content. simpl. lia. }
  apply Z.leb_gt in Hfit.
  destruct (find_sentence_boundary_long text limit Hlimit Hfit) as [k [R [Hk _]]].
  rewrite R. cbn [bind].
  replace (k =? 0) with false by (symmetry; apply Z.eqb_neq; lia).
  cbv zeta iota.
  set (head := slice text None (Some k)).
  set (tail := slice text (Some k) None).
  assert (Hcut : head ++ tail = text) by apply slice_cut.
  assert (Hhead : len head = k) by (apply slice_upto_len; lia).
  assert (Htail : len tail = len text - k) by (apply slice_from_len; lia).
  pose proof (strip_len head) as Hsh. pose proof (strip_len tail) as Hst.
  destruct (IH (strip tail) (tweets ++ [strip head]) log) as [new [Run [Hall [P Hn]]]].
  { unfold len in *. lia. }
  exists (strip head :: new). rewrite Run, <- app_assoc. simpl.
  split; [reflexivity|]. split; [|split].
  - constructor; [|assumption]. split; [|lia].
    assert (Hne : strip head <> []).
    { unfold head. rewrite slice_upto.
      rewrite clamp_inside by lia.
      destruct (Z.to_nat k) as [|n] eqn:En; [lia|].
      unfold text. simpl. now apply strip_nonempty. }
    unfold len. destruct (strip head); [congruence | simpl length; lia].
  - destruct (strip_split head) as [a1 [a2 [Ea [A1 A2]]]].
    destruct (strip_split tail) as [b1 [b2 [Eb [B1 B2]]]].
    remember (strip head) as th. remember (strip tail) as tt.
    rewrite E, <- Hcut, Ea, Eb.
    replace (w1 ++ ((a1 ++ th ++ a2) ++ b1 ++ tt ++ b2) ++ w2)
      with ((w1 ++ a1) ++ th ++ (a2 ++ b1 ++ (tt ++ b2) ++ w2))
      by (rewrite <- !app_assoc; reflexivity).
    apply pieces_next; [now rewrite all_space_app, W1, A1|].
    apply pieces_space_left; [assumption|].
    apply pieces_space_left; [assumption|].
    apply pieces_space_right; [assumption|].
    apply pieces_space_right; assumption.
  - unfold len, content in *. simpl length in *. lia.
Qed.

(** One iteration of the loop on a text that is still too long after
    trimming: the cut found by [find_sentence_boundary] is used as it is. *)
Lemma while_remaining_step (fuel : nat) (limit : Z) tweets log remaining k :
  20 < limit ->
  limit < len (clean_and_trim remaining) ->
  find_sentence_boundary (clean_and_trim remaining) limit = Returned k ->
  while_remaining (S fuel) limit tweets log remaining
  = while_remaining fuel limit
      (tweets ++ [clean_and_trim (slice (clean_and_trim remaining) None (Some k))])
      log
      (clean_and_trim (slice (clean_and_trim remaining) (Some k) None)).
Proof.
  intros Hlimit Hlong R.
  destruct (find_sentence_boundary_long _ _ Hlimit Hlong) as [k' [R' [Hk _]]].
  assert (k' = k) by congruence. subst k'.
  cbn [while_remaining]. cbv zeta.
  pose proof (strip_length remaining) as Hsl.
  destruct remaining as [|c0 r0].
  { unfold clean_and_trim, len in *. simpl in *. lia. }
  destruct (clean_and_trim (c0 :: r0)) as [|c r] eqn:Es.
  { unfold len in Hlong. simpl in Hlong. lia. }
  replace (len (c :: r) <=? limit) with false by (symmetry; apply Z.leb_gt; lia).
  rewrite R. cbn [bind].
  replace (k =? 0) with false by (symmetry; apply Z.eqb_neq; lia).
  reflexivity.
Qed.

(** ** The verification pass *)

Lemma verify_tweets_within (limit : Z) (fuel : nat) :
  forall i tweets log,
    Forall (fun t => len t <= limit) tweets ->
    (length tweets - i < fuel)%nat ->
    verify_tweets fuel limit i tweets log = Returned (tweets, log).
Proof.
  induction fuel as [|fuel IH]; intros i tweets log Hall Hfuel; [lia|].
  cbn [verify_tweets].
  destruct (nth_error tweets i) as [tweet|] eqn:N; [|reflexivity].
  assert (Hi : (i < length tweets)%nat)
    by (apply nth_error_Some; congruence).
  apply nth_error_In in N.
  pose proof (proj1 (Forall_forall _ _) Hall _ N) as Ht. cbv beta in Ht.
  replace (limit <? len tweet) with false by (symmetry; apply Z.ltb_ge; lia).
  apply IH; [assumption | lia].
Qed.

(** ** The whole function *)

Lemma TWEET_LIMIT_margin : 20 < TWEET_LIMIT.
Proof. reflexivity. Qed.

(** With more fuel than the content has characters, both loops finish: the
    result is a sequence of non-empty fragments within the limit that make
    up the content, the verification pass changes nothing, and nothing is
    logged. *)
Lemma split_with_fuel (fuel : nat) (content : str) :
  (length content < fuel)%nat ->
  exists tweets,
    while_remaining fuel TWEET_LIMIT [] [] content = Returned (tweets, [])
    /\ verify_tweets fuel TWEET_LIMIT 0 tweets [] = Returned (tweets, [])
    /\ split_with fuel TWEET_LIMIT content = Returned (tweets, [])
    /\ Forall (fun t => 1 <= len t <= TWEET_LIMIT) tweets
    /\ pieces_of tweets content.
Proof.
  intros Hfuel.
  destruct (while_remaining_spec TWEET_LIMIT TWEET_LIMIT_margin
              fuel content [] [] Hfuel) as [tweets [Run [Hall [P Hn]]]].
  simpl in Run.
  assert (V : verify_tweets fuel TWEET_LIMIT 0 tweets [] = Returned (tweets, [])).
  { apply verify_tweets_within; [|lia].
    eapply Forall_impl; [|exact Hall]. cbv beta. intros; lia. }
  exists tweets. unfold split_with. rewrite Run. cbn [bind fst snd].
  auto.
Qed.

Lemma split_into_tweets_spec (content : str) :
  exists tweets,
    split_logged content = Returned (tweets, [])
    /\ _split_into_tweets content = Returned tweets
    /\ Forall (fun t => 1 <= len t <= TWEET_LIMIT) tweets
    /\ pieces_of tweets content.
Proof.
  destruct (split_with_fuel (S (length content)) content (Nat.lt_succ_diag_r _))
    as [tweets [_ [_ [Run [Hall P]]]]].
  exists tweets. unfold _split_into_tweets, split_logged. rewrite Run.
  auto.
Qed.

(** The result does not depend on how much fuel is given beyond
    [len(content)]. *)
Lemma while_remaining_more_fuel (limit : Z) (fuel : nat) :
  forall fuel' tweets log remaining r,
    (fuel <= fuel')%nat ->
    while_remaining fuel limit tweets log remaining = Returned r ->
    while_remaining fuel' limit tweets log remaining = Returned r.
Proof.
  induction fuel as [|fuel IH]; intros fuel' tweets log remaining r Hle;
    [discriminate|].
  destruct fuel' as [|fuel']; [lia|].
  cbn [while_remaining]. cbv zeta.
  destruct remaining; [auto|].
  destruct (clean_and_trim (a :: remaining)); [auto|].
  destruct (len (a0 :: s) <=? limit); [auto|].
  destruct (find_sentence_boundary (a0 :: s) limit); cbn [bind]; try discriminate.
  apply IH. lia.
Qed.

Lemma verify_tweets_more_fuel (limit : Z) (fuel : nat) :
  forall fuel' i tweets log r,
    (fuel <= fuel')%nat ->
    verify_tweets fuel limit i tweets log = Returned r ->
    verify_tweets fuel' limit i tweets log = Returned r.
Proof.
  induction fuel as [|fuel IH]; intros fuel' i tweets log r Hle;
    [discriminate|].
  destruct fuel' as [|fuel']; [lia|].
  cbn [verify_tweets].
  destruct (nth_error tweets i); [|auto].
  destruct (limit <? len s); apply IH; lia.
Qed.

Lemma split_with_more_fuel (limit : Z) (fuel fuel' : nat) content r :
  (fuel <= fuel')%nat ->
  split_with fuel limit content = Returned r ->
  split_with fuel' limit content = Returned r.
Proof.
  unfold split_with. intros Hle.
  destruct (while_remaining fuel limit [] [] content) as [p| |] eqn:W;
    cbn [bind]; try discriminate.
  rewrite (while_remaining_more_fuel _ _ _ _ _ _ _ Hle W). cbn [bind].
  now apply verify_tweets_more_fuel.
Qed.

(** ** Sentence endings *)

Lemma skipn_two (l : str) : forall n,
  (S n < length l)%nat ->
  exists a b rest,
    skipn n l = a :: b :: rest
    /\ nth_error l n = Some a /\ nth_error l (S n) = Some b.
Proof.
  induction l as [|x l IH]; intros n Hn; [simpl in Hn; lia|].
  destruct n as [|n].
  - destruct l as [|y l]; [simpl in Hn; lia|]. exists x, y, l. simpl. auto.
  - simpl in Hn. destruct (IH n ltac:(lia)) as [a [b [rest [E [Na Nb]]]]].
    exists a, b, rest. simpl. auto.
Qed.

Lemma index_nth (s : str) (i : Z) c :
  0 <= i -> nth_error s (Z.to_nat i) = Some c -> index s i = Returned c.
Proof.
  intros Hi N. unfold index.
  assert (Hlt : (Z.to_nat i < length s)%nat)
    by (apply nth_error_Some; congruence).
  replace (i <? 0) with false by (symmetry; apply Z.ltb_ge; lia).
  replace ((0 <=? i) && (i <? len s)) with true
    by (symmetry; apply andb_true_intro; split;
        [apply Z.leb_le | apply Z.ltb_lt]; unfold len; lia).
  now rewrite N.
Qed.

(** The test of the source at a position inside the text: the character
    before the position is terminal punctuation AND the character at the
    position is a space or a newline. *)
Lemma ending_at_chars (text : str) (i : Z) :
  1 <= i < len text ->
  ending_at text i = punct_at text (i - 1) && gap_at text i.
Proof.
  intros Hi. unfold ending_at, slice.
  rewrite !clamp_inside by lia.
  replace (Z.to_nat (i + 1) - Z.to_nat (i - 1))%nat with 2%nat by lia.
  destruct (skipn_two text (Z.to_nat (i - 1))) as [a [b [rest [E [Na Nb]]]]];
    [unfold len in Hi; lia|].
  replace (S (Z.to_nat (i - 1))) with (Z.to_nat i) in Nb by lia.
  assert (Ia : index text (i - 1) = Returned a)
    by (apply index_nth; [lia | assumption]).
  assert (Ib : index text i = Returned b)
    by (apply index_nth; [lia | assumption]).
  unfold punct_at, gap_at. rewrite Ia, Ib, E.
  unfold sentence_endings, of_string.
  cbn [firstn existsb str_eqb list_ascii_of_string].
  destruct (Ascii.eqb a "."), (Ascii.eqb a "!"), (Ascii.eqb a "?"),
    (Ascii.eqb b " "), (Ascii.eqb b newline); reflexivity.
Qed.

Lemma none_in_range_spec (p : Z -> bool) (n : nat) :
  none_in_range p n = true ->
  forall j, 1 <= j <= Z.of_nat n -> p j = false.
Proof.
  unfold none_in_range. rewrite forallb_forall. intros H j Hj.
  specialize (H (Z.to_nat j)).
  rewrite Z2Nat.id in H by lia.
  apply negb_true_iff, H, in_seq. lia.
Qed.

Lemma visible_join_spaces (tweets : list str) :
  visible (join_spaces tweets) = visible (concat tweets).
Proof.
  induction tweets as [|t rest IH]; [reflexivity|].
  destruct rest as [|t' rest].
  - simpl. now rewrite app_nil_r.
  - change (join_spaces (t :: t' :: rest))
      with (t ++ " "%char :: join_spaces (t' :: rest)).
    change (concat (t :: t' :: rest)) with (t ++ concat (t' :: rest)).
    rewrite !visible_app. f_equal. exact IH.
Qed.

(** Content that trims to nothing gives no fragment; content that trims to
    at most [TWEET_LIMIT] characters gives that one fragment. *)
Lemma split_logged_blank (content : str) :
  strip content = [] -> split_logged content = Returned ([], []).
Proof.
  intros Hs. unfold split_logged, split_with. cbn [while_remaining].
  destruct content as [|c r]; [reflexivity|].
  cbv zeta. unfold clean_and_trim. rewrite Hs. reflexivity.
Qed.

Lemma split_logged_short (content : str) :
  strip content <> [] -> len (strip content) <= TWEET_LIMIT ->
  split_logged content = Returned ([strip content], []).
Proof.
  intros Hne Hfit. unfold split_logged, split_with. cbn [while_remaining].
  destruct content as [|c r]; [now elim Hne|].
  cbv zeta. unfold clean_and_trim.
  destruct (strip (c :: r)) as [|c' r'] eqn:Es; [now elim Hne|].
  replace (len (c' :: r') <=? TWEET_LIMIT) with true
    by (symmetry; now apply Z.leb_le).
  cbn [bind fst snd app].
  apply verify_tweets_within; [|simpl; lia].
  constructor; [assumption | constructor].
Qed.

(** ** The properties of the splitter *)

(** C1. For every content the splitter returns, and every fragment it
    returns has at most [TWEET_LIMIT] = 260 characters; this covers content
    holding a single token longer than the limit. *)
Theorem fragments_within_limit (content : str) :
  exists tweets,
    _split_into_tweets content = Returned tweets
    /\ Forall (fun t => len t <= TWEET_LIMIT) tweets.
Proof.
  destruct (split_into_tweets_spec content) as [tweets [_ [Run [Hall _]]]].
  exists tweets. split; [assumption|].
  eapply Forall_impl; [|exact Hall]. cbv beta. intros; lia.
Qed.

(** C2. For every content the returned fragments are, in order, the content
    with runs of whitespace removed before, between and after them; so
    their concatenation has exactly the non-whitespace characters of the
    content, each once and in the original order. *)
Theorem fragments_preserve_text (content : str) :
  exists tweets,
    _split_into_tweets content = Returned tweets
    /\ pieces_of tweets content
    /\ visible (concat tweets) = visible content.
Proof.
  destruct (split_into_tweets_spec content) as [tweets [_ [Run [_ P]]]].
  exists tweets. split; [assumption|]. split; [assumption|].
  now apply pieces_visible.
Qed.

(** C7. With more fuel than the content has characters the splitter
    returns, always the same result; and whenever the trimmed remaining
    text is longer than the limit, the cut is strictly positive and strictly
    before the end of the text, the loop continues with the trimmed text
    after the cut, and that text is strictly shorter. *)
Theorem split_terminates (fuel : nat) (content : str) :
  (length content < fuel)%nat ->
  split_with fuel TWEET_LIMIT content = split_logged content
  /\ (exists tweets, split_logged content = Returned (tweets, []))
  /\ forall remaining,
      TWEET_LIMIT < len (clean_and_trim remaining) ->
      exists k,
        find_sentence_boundary (clean_and_trim remaining) TWEET_LIMIT = Returned k
        /\ 0 < k < len (clean_and_trim remaining)
        /\ len (clean_and_trim (slice (clean_and_trim remaining) (Some k) None))
           < len remaining
        /\ forall f tweets log,
            while_remaining (S f) TWEET_LIMIT tweets log remaining
            = while_remaining f TWEET_LIMIT
                (tweets ++ [clean_and_trim
                              (slice (clean_and_trim remaining) None (Some k))])
                log
                (clean_and_trim (slice (clean_and_trim remaining) (Some k) None)).
Proof.
  intros Hfuel.
  destruct (split_into_tweets_spec content) as [tweets [Run _]].
  split; [|split; [eauto|]].
  - rewrite Run. apply (split_with_more_fuel _ (S (length content))); [lia|].
    exact Run.
  - intros remaining Hlong.
    destruct (find_sentence_boundary_long _ _ TWEET_LIMIT_margin Hlong)
      as [k [R [Hk _]]].
    exists k. split; [assumption|]. split; [unfold TWEET_LIMIT in *; lia|].
    split.
    + pose proof (strip_len remaining) as H1.
      pose proof (strip_len (slice (clean_and_trim remaining) (Some k) None)) as H2.
      rewrite slice_from_len in H2 by (unfold TWEET_LIMIT in *; lia).
      unfold clean_and_trim in *. lia.
    + intros f tweets0 log.
      now apply while_remaining_step; [exact TWEET_LIMIT_margin | |].
Qed.

Lemma split_terminates_witness :
  (exists tweets, split_logged (of_string "abc") = Returned (tweets, []))
  /\ exists k,
      find_sentence_boundary (clean_and_trim (repeat "a"%char 300)) TWEET_LIMIT
      = Returned k
      /\ 0 < k < len (clean_and_trim (repeat "a"%char 300)).
Proof.
  destruct (split_terminates 4 (of_string "abc")) as [_ [H1 H2]].
  - simpl. lia.
  - split; [exact H1|].
    destruct (H2 (repeat "a"%char 300)) as [k [R [Hk _]]].
    + vm_compute. reflexivity.
    + exists k. split; assumption.
Defined.

(** C8. Empty or whitespace-only content gives the empty sequence; content
    of at most [TWEET_LIMIT] characters that is not whitespace-only gives
    exactly one fragment, the trimmed content. *)
Theorem blank_and_short_content (content : str) :
  (all_space content = true -> _split_into_tweets content = Returned [])
  /\ (all_space content = false -> len content <= TWEET_LIMIT ->
      _split_into_tweets content = Returned [clean_and_trim content]).
Proof.
  unfold _split_into_tweets. split.
  - intros Hb. rewrite split_logged_blank; [reflexivity|].
    now apply strip_all_space.
  - intros Hb Hfit. unfold clean_and_trim. rewrite split_logged_short.
    + reflexivity.
    + intros E. apply strip_nil_all_space in E. congruence.
    + pose proof (strip_len content). lia.
Qed.

Lemma blank_and_short_content_witness :
  _split_into_tweets (of_string "   ") = Returned []
  /\ _split_into_tweets [] = Returned []
  /\ _split_into_tweets (of_string "  Hello world. This is a test. ")
     = Returned [of_string "Hello world. This is a test."].
Proof.
  split; [|split].
  - apply (proj1 (blank_and_short_content (of_string "   "))). reflexivity.
  - apply (proj1 (blank_and_short_content [])). reflexivity.
  - apply (proj2 (blank_and_short_content
                    (of_string "  Hello world. This is a test. "))).
    + reflexivity.
    + vm_compute. discriminate.
Defined.

(** C9. Splitting again the fragments of a first run joined with single
    spaces returns fragments with the same non-whitespace characters, in the
    same order, as the fragments of the first run. *)
Theorem resplit_same_text (content : str) :
  exists tweets tweets',
    _split_into_tweets content = Returned tweets
    /\ _split_into_tweets (join_spaces tweets) = Returned tweets'
    /\ visible (concat tweets') = visible (concat tweets).
Proof.
  destruct (split_into_tweets_spec content) as [tweets [_ [Run _]]].
  destruct (split_into_tweets_spec (join_spaces tweets))
    as [tweets' [_ [Run' [_ P']]]].
  exists tweets, tweets'. split; [assumption|]. split; [assumption|].
  rewrite (pieces_visible _ _ P'). apply visible_join_spaces.
Qed.

(** C10. The verification pass after the loop never splits anything: for
    every content the fragments left by the main loop all have at most 260
    characters, the pass returns them unchanged, and the run logs no
    warning, neither "forcing split" nor "could not find a good split
    point"; the boundary search returns the length of a text that fits and
    a cut in [1, limit - 20] on a text that does not. *)
Theorem repair_pass_unreachable (content : str) :
  (exists tweets,
     while_remaining (S (length content)) TWEET_LIMIT [] [] content
     = Returned (tweets, [])
     /\ Forall (fun t => len t <= TWEET_LIMIT) tweets
     /\ verify_tweets (S (length content)) TWEET_LIMIT 0 tweets []
        = Returned (tweets, [])
     /\ split_logged content = Returned (tweets, []))
  /\ exists k,
      find_sentence_boundary content TWEET_LIMIT = Returned k
      /\ ((len content <= TWEET_LIMIT /\ k = len content)
          \/ (TWEET_LIMIT < len content /\ 1 <= k <= TWEET_LIMIT - 20)).
Proof.
  split.
  - destruct (split_with_fuel (S (length content)) content (Nat.lt_succ_diag_r _))
      as [tweets [W [V [Run [Hall _]]]]].
    exists tweets. repeat split; try assumption.
    eapply Forall_impl; [|exact Hall]. cbv beta. intros; lia.
  - destruct (Z.le_gt_cases (len content) TWEET_LIMIT) as [Hfit|Hlong].
    + exists (len content). split; [|left; auto].
      unfold find_sentence_boundary.
      now replace (len content <=? TWEET_LIMIT) with true
        by (symmetry; now apply Z.leb_le).
    + destruct (find_sentence_boundary_long _ _ TWEET_LIMIT_margin Hlong)
        as [k [R [Hk _]]].
      exists k. split; [assumption|]. right. auto.
Qed.


(** C4, as stated, fails.  In [bare_period] position 101 is a terminator in
    the words of the specification (a period, not followed by a space or
    newline) and lies in the scanned range, yet the cut is 240, where no
    punctuation is: a period followed by a letter is not a boundary for the
    source. *)
Lemma bare_punctuation_is_no_boundary : ~ spec_cut_rule bare_period.
Proof.
  unfold spec_cut_rule. intros H.
  destruct H as [k [R [_ [T _]]]].
  - vm_compute. reflexivity.
  - exists 101. split; [unfold TWEET_LIMIT; lia | vm_compute; reflexivity].
  - assert (R' : find_sentence_boundary bare_period TWEET_LIMIT = Returned 240)
      by (vm_compute; reflexivity).
    rewrite R' in R. injection R as <-.
    vm_compute in T. discriminate.
Qed.

(** C4, amended.  On a text longer than the limit, when some position [i]
    of [1, limit - 20] has terminal punctuation before it AND a space or a
    newline at it, the cut is the largest such position. *)
Theorem cut_at_last_sentence_ending (text : str) (i : Z) :
  TWEET_LIMIT < len text ->
  1 <= i <= TWEET_LIMIT - 20 ->
  punct_at text (i - 1) = true ->
  gap_at text i = true ->
  exists k,
    find_sentence_boundary text TWEET_LIMIT = Returned k
    /\ i <= k <= TWEET_LIMIT - 20
    /\ punct_at text (k - 1) = true
    /\ gap_at text k = true
    /\ forall j, k < j <= TWEET_LIMIT - 20 ->
                 punct_at text (j - 1) && gap_at text j = false.
Proof.
  intros Hlong Hi Hp Hg.
  assert (Hin : forall j, 1 <= j <= TWEET_LIMIT - 20 ->
                ending_at text j = punct_at text (j - 1) && gap_at text j).
  { intros j Hj. apply ending_at_chars. unfold TWEET_LIMIT in *. lia. }
  assert (Ei : ending_at text i = true) by (rewrite Hin, Hp, Hg; auto).
  destruct (find_sentence_boundary_long _ _ TWEET_LIMIT_margin Hlong)
    as [k [R [Hk [[Ek Hmax]|[Hnone _]]]]].
  - exists k. split; [assumption|].
    assert (i <= k).
    { destruct (Z.le_gt_cases i k) as [|Hgt]; [assumption|].
      rewrite Hmax in Ei by lia. discriminate. }
    rewrite Hin in Ek by assumption. apply andb_prop in Ek as [Pk Gk].
    repeat split; try lia; try assumption.
    intros j Hj. rewrite <- Hin by lia. apply Hmax. lia.
  - rewrite Hnone in Ei by assumption. discriminate.
Qed.

Lemma cut_at_last_sentence_ending_witness :
  exists k,
    find_sentence_boundary three_sentences TWEET_LIMIT = Returned k
    /\ 51 <= k <= TWEET_LIMIT - 20.
Proof.
  destruct (cut_at_last_sentence_ending three_sentences 51)
    as [k [R [Hk _]]].
  - vm_compute. reflexivity.
  - unfold TWEET_LIMIT. lia.
  - vm_compute. reflexivity.
  - vm_compute. reflexivity.
  - exists k. split; assumption.
Defined.

Example three_sentences_cut :
  find_sentence_boundary three_sentences TWEET_LIMIT = Returned 102.
Proof. vm_compute. reflexivity. Qed.

(** C5.  When the trimmed remaining text is longer than the limit and the
    scan finds no sentence ending, the cut is the rightmost space of
    [0, limit - 20], whenever that range holds a space. *)
Theorem fallback_is_rightmost_space (remaining : str) (i : Z) :
  TWEET_LIMIT < len (clean_and_trim remaining) ->
  (forall j, 1 <= j <= TWEET_LIMIT - 20 ->
             ending_at (clean_and_trim remaining) j = false) ->
  0 <= i <= TWEET_LIMIT - 20 ->
  space_at (clean_and_trim remaining) i = true ->
  exists k,
    find_sentence_boundary (clean_and_trim remaining) TWEET_LIMIT = Returned k
    /\ i <= k <= TWEET_LIMIT - 20
    /\ space_at (clean_and_trim remaining) k = true
    /\ forall j, k < j <= TWEET_LIMIT - 20 ->
                 space_at (clean_and_trim remaining) j = false.
Proof.
  intros Hlong Hnone Hi Si.
  assert (Hi1 : 1 <= i).
  { destruct (Z.eq_dec i 0) as [->|]; [|lia]. exfalso.
    unfold clean_and_trim in *.
    destruct (strip remaining) as [|c r] eqn:Es.
    - unfold len in Hlong. simpl in Hlong. unfold TWEET_LIMIT in Hlong. lia.
    - apply strip_head in Es. unfold space_at, index in Si.
      cbn in Si. apply Ascii.eqb_eq in Si. subst c. discriminate. }
  destruct (find_sentence_boundary_long _ _ TWEET_LIMIT_margin Hlong)
    as [k [R [Hk [[Ek _]|[_ [[Sk Hmax]|[_ Hnosp]]]]]]].
  - rewrite Hnone in Ek by assumption. discriminate.
  - exists k. split; [assumption|].
    assert (i <= k).
    { destruct (Z.le_gt_cases i k) as [|Hgt]; [assumption|].
      rewrite Hmax in Si by lia. discriminate. }
    repeat split; try lia; assumption.
  - rewrite Hnosp in Si by lia. discriminate.
Qed.

Lemma fallback_is_rightmost_space_witness :
  exists k,
    find_sentence_boundary (clean_and_trim three_words) TWEET_LIMIT = Returned k
    /\ 100 <= k <= TWEET_LIMIT - 20.
Proof.
  destruct (fallback_is_rightmost_space three_words 100) as [k [R [Hk _]]].
  - vm_compute. reflexivity.
  - intros j Hj.
    apply (none_in_range_spec (ending_at (clean_and_trim three_words)) 240);
      [vm_compute; reflexivity | exact Hj].
  - unfold TWEET_LIMIT. lia.
  - vm_compute. reflexivity.
  - exists k. split; assumption.
Defined.

Example three_words_cut :
  find_sentence_boundary three_words TWEET_LIMIT = Returned 201
  /\ _split_into_tweets three_words
     = Returned [repeat "a"%char 100 ++ " "%char :: repeat "b"%char 100;
                 repeat "c"%char 100].
Proof. split; vm_compute; reflexivity. Qed.

(** Position 0 is not scanned: on a text that is not trimmed, a space at
    index 0 is no fallback. *)
Example leading_space_not_scanned :
  find_sentence_boundary (" "%char :: repeat "a"%char 300) TWEET_LIMIT
  = Returned 240.
Proof. vm_compute. reflexivity. Qed.

(** C6, as stated, fails.  The source has no limit argument:
    [_split_into_tweets(self, content)] takes the content only and
    [TWEET_LIMIT] is a constant of its body, so no call passes a limit, and
    no call fails: the segmenter has no error condition. *)
Lemma no_failure_condition : ~ spec_failure_condition.
Proof.
  intros [content [e He]].
  destruct (split_into_tweets_spec content) as [tweets [_ [Run _]]].
  rewrite Run in He. discriminate.
Qed.

(** C6, amended.  The segmenter takes the content only and has no failure
    condition: for every content, empty, whitespace-only or pathological,
    it returns a sequence. *)
Theorem split_never_fails (content : str) :
  exists tweets, _split_into_tweets content = Returned tweets.
Proof.
  destruct (split_into_tweets_spec content) as [tweets [_ [Run _]]].
  eauto.
Qed.

(** ** The scenarios of the specification *)

Example scenario_A :
  _split_into_tweets (of_string "Hello world. This is a test.")
  = Returned [of_string "Hello world. This is a test."].
Proof. reflexivity. Qed.

Example long_token :
  _split_into_tweets (repeat "a"%char 400)
  = Returned [repeat "a"%char 240; repeat "a"%char 160].
Proof. vm_compute. reflexivity. Qed.

(** Scenario B: 300 times ["word "]; every fragment ends at a word
    boundary. *)
Example scenario_B :
  _split_into_tweets (concat (repeat (of_string "word ") 300))
  = Returned
      (repeat (join_spaces (repeat (of_string "word") 48)) 6
       ++ [join_spaces (repeat (of_string "word") 12)]).
Proof. vm_compute. reflexivity. Qed.

(** ** More on trimming *)

Lemma lstrip_fixed (s : str) :
  (forall c r, s = c :: r -> isspace c = false) -> lstrip s = s.
Proof.
  destruct s as [|c r]; [reflexivity|]. intros H. simpl.
  now rewrite (H c r eq_refl).
Qed.

Lemma lstrip_idempotent (s : str) : lstrip (lstrip s) = lstrip s.
Proof.
  apply lstrip_fixed. intros c r E. exact (lstrip_head _ _ _ E).
Qed.

Lemma strip_idempotent (s : str) : strip (strip s) = strip s.
Proof.
  assert (L : lstrip (strip s) = strip s).
  { apply lstrip_fixed. intros c r E. exact (strip_head _ _ _ E). }
  unfold strip at 1. rewrite L. unfold strip, rstrip.
  now rewrite rev_involutive, lstrip_idempotent.
Qed.

Lemma strip_last (s r : str) (c : ascii) :
  strip s = r ++ [c] -> isspace c = false.
Proof.
  unfold strip, rstrip. intros E.
  apply (f_equal (@rev ascii)) in E.
  rewrite rev_involutive, rev_app_distr in E. simpl in E.
  exact (lstrip_head _ _ _ E).
Qed.

Lemma lstrip_space_left (w s : str) :
  all_space w = true -> lstrip (w ++ s) = lstrip s.
Proof.
  induction w as [|c w IH]; simpl; [reflexivity|].
  intros H. apply andb_prop in H as [Hc Hw]. rewrite Hc. auto.
Qed.

Lemma lstrip_app_visible (s w : str) :
  lstrip s <> [] -> lstrip (s ++ w) = lstrip s ++ w.
Proof.
  induction s as [|c s IH]; simpl; [congruence|].
  destruct (isspace c); auto.
Qed.

Lemma rstrip_space_right (s w : str) :
  all_space w = true -> rstrip (s ++ w) = rstrip s.
Proof.
  intros H. unfold rstrip. rewrite rev_app_distr.
  rewrite lstrip_space_left; [reflexivity|]. now rewrite all_space_rev.
Qed.

(** Whitespace around a text does not change what it trims to. *)
Lemma strip_padding (w1 s w2 : str) :
  all_space w1 = true -> all_space w2 = true ->
  strip (w1 ++ s ++ w2) = strip s.
Proof.
  intros W1 W2. unfold strip. rewrite (lstrip_space_left _ _ W1).
  destruct (lstrip s) as [|c r] eqn:E.
  - assert (all_space s = true).
    { destruct (lstrip_split s) as [w [Es Ws]]. rewrite E, app_nil_r in Es.
      now subst w. }
    rewrite lstrip_all_space; [reflexivity|].
    rewrite all_space_app. now apply andb_true_intro.
  - rewrite lstrip_app_visible by congruence.
    rewrite E. now apply rstrip_space_right.
Qed.

(** ** The loop as a relation *)

(** With enough fuel the loop returns the fragments that [splits]
    describes, appended to those it was entered with, and logs nothing. *)
Lemma while_remaining_splits (limit : Z) (Hlimit : 20 < limit) (fuel : nat) :
  forall remaining tweets log,
    (length remaining < fuel)%nat ->
    exists new,
      while_remaining fuel limit tweets log remaining = Returned (tweets ++ new, log)
      /\ splits limit remaining new.
Proof.
  induction fuel as [|fuel IH]; intros remaining tweets log Hfuel; [lia|].
  destruct (clean_and_trim remaining) as [|c r] eqn:Es.
  { exists []. rewrite app_nil_r. split; [|now apply splits_blank].
    cbn [while_remaining]. destruct remaining; [reflexivity|].
    cbv zeta. now rewrite Es. }
  destruct (Z.le_gt_cases (len (clean_and_trim remaining)) limit) as [Hfit|Hlong].
  { exists [clean_and_trim remaining].
    split; [|apply splits_last; [congruence | assumption]].
    cbn [while_remaining]. destruct remaining as [|c0 r0]; [discriminate|].
    cbv zeta. rewrite Es in *.
    now replace (len (c :: r) <=? limit) with true
      by (symmetry; now apply Z.leb_le). }
  destruct (find_sentence_boundary_long _ _ Hlimit Hlong) as [k [R [Hk _]]].
  rewrite (while_remaining_step fuel limit tweets log remaining k Hlimit Hlong R).
  pose proof (strip_len remaining) as H1.
  pose proof (strip_len (slice (clean_and_trim remaining) (Some k) None)) as H2.
  rewrite slice_from_len in H2 by lia.
  destruct (IH (clean_and_trim (slice (clean_and_trim remaining) (Some k) None))
               (tweets ++ [clean_and_trim
                             (slice (clean_and_trim remaining) None (Some k))])
               log) as [new [Run S]].
  { unfold clean_and_trim, len in *. lia. }
  exists (clean_and_trim (slice (clean_and_trim remaining) None (Some k)) :: new).
  rewrite Run, <- app_assoc. split; [reflexivity|].
  now apply splits_cut.
Qed.

Lemma split_into_tweets_splits (content : str) :
  exists tweets,
    _split_into_tweets content = Returned tweets
    /\ splits TWEET_LIMIT content tweets.
Proof.
  destruct (split_with_fuel (S (length content)) content (Nat.lt_succ_diag_r _))
    as [tweets [W0 [_ [Run _]]]].
  destruct (while_remaining_splits TWEET_LIMIT TWEET_LIMIT_margin
              (S (length content)) content [] [] (Nat.lt_succ_diag_r _))
    as [new [W S]].
  rewrite W0 in W. injection W as <-.
  exists tweets. split; [|assumption].
  unfold _split_into_tweets, split_logged. rewrite Run. reflexivity.
Qed.

Lemma splits_trimmed (limit : Z) (remaining : str) (tweets : list str) :
  splits limit remaining tweets ->
  Forall (fun t => clean_and_trim t = t) tweets.
Proof.
  induction 1 as [r E|r Hne Hfit|r k rest Hlong R S IH].
  - constructor.
  - constructor; [apply strip_idempotent | constructor].
  - constructor; [apply strip_idempotent | assumption].
Qed.

Lemma splits_margin (limit : Z) (remaining : str) (tweets : list str) :
  20 < limit ->
  splits limit remaining tweets ->
  forall t, In t (removelast tweets) -> len t <= limit - 20.
Proof.
  intros Hlimit. induction 1 as [r E|r Hne Hfit|r k rest Hlong R S IH];
    intros t Hin; try (simpl in Hin; contradiction).
  destruct (find_sentence_boundary_long _ _ Hlimit Hlong) as [k' [R' [Hk _]]].
  assert (k' = k) by congruence. subst k'.
  destruct rest as [|t' rest]; [simpl in Hin; contradiction|].
  change (In t (clean_and_trim (slice (clean_and_trim r) None (Some k))
                  :: removelast (t' :: rest))) in Hin.
  destruct Hin as [<-|Hin]; [|now apply IH].
  pose proof (strip_len (slice (clean_and_trim r) None (Some k))) as Hs.
  rewrite slice_upto_len in Hs by lia. unfold clean_and_trim in *. lia.
Qed.

Lemma splits_nonblank (limit : Z) (remaining : str) (tweets : list str) :
  splits limit remaining tweets ->
  clean_and_trim remaining <> [] -> tweets <> [].
Proof. destruct 1; congruence. Qed.

(** The text after a cut strictly inside a trimmed text does not trim to
    nothing: it ends with the last character of the text. *)
Lemma tail_nonblank (s : str) (k : Z) :
  0 <= k < len (strip s) ->
  strip (slice (strip s) (Some k) None) <> [].
Proof.
  intros Hk E. apply strip_nil_all_space in E.
  rewrite slice_from, clamp_inside in E by lia.
  destruct (strip s) as [|c0 s0] eqn:Es;
    [unfold len in Hk; simpl in Hk; lia|].
  destruct (@exists_last _ (c0 :: s0)) as [r0 [c E0]]; [discriminate|].
  rewrite E0 in *. apply strip_last in Es.
  unfold len in Hk. rewrite length_app in Hk. simpl in Hk.
  rewrite skipn_app in E.
  replace (Z.to_nat k - length r0)%nat with 0%nat in E by lia.
  rewrite all_space_app in E. simpl in E.
  rewrite Es, andb_false_r in E. discriminate.
Qed.

Lemma splits_functional (limit : Z) (remaining : str) (tweets : list str) :
  20 < limit ->
  splits limit remaining tweets ->
  forall remaining' tweets',
    clean_and_trim remaining' = clean_and_trim remaining ->
    splits limit remaining' tweets' ->
    tweets' = tweets.
Proof.
  intros Hlimit.
  induction 1 as [r E|r Hne Hfit|r k rest Hlong R S IH];
    intros r' ts' Eq S';
    destruct S' as [r' E'|r' Hne' Hfit'|r' k' rest' Hlong' R' S'];
    rewrite Eq in *; try reflexivity; try congruence; try lia.
  - rewrite E in Hlong'. unfold len in Hlong'. simpl in Hlong'. lia.
  - rewrite E' in Hlong. unfold len in Hlong. simpl in Hlong. lia.
  - assert (k' = k) by congruence. subst k'.
    f_equal. eapply IH; [reflexivity | exact S'].
Qed.

(** ** Further properties of the splitter *)

(** X1. Every returned fragment is non-empty and has no whitespace at
    either end: trimming it again changes nothing. *)
Theorem fragments_trimmed_nonempty (content : str) :
  exists tweets,
    _split_into_tweets content = Returned tweets
    /\ Forall (fun t => t <> [] /\ clean_and_trim t = t) tweets.
Proof.
  destruct (split_into_tweets_splits content) as [tweets [Run S]].
  destruct (split_into_tweets_spec content) as [tweets' [_ [Run' [Hall _]]]].
  assert (tweets' = tweets) by congruence. subst tweets'.
  exists tweets. split; [assumption|].
  pose proof (splits_trimmed _ _ _ S) as Ht.
  rewrite Forall_forall in *. intros t Hin. split; [|now apply Ht].
  specialize (Hall t Hin). cbv beta in Hall.
  intros ->. unfold len in Hall. simpl in Hall. lia.
Qed.

(** X2. Every returned fragment but the last has at most
    [TWEET_LIMIT - 20] = 240 characters: only the last one may use the 20
    characters of margin. *)
Theorem fragments_keep_margin (content : str) :
  exists tweets,
    _split_into_tweets content = Returned tweets
    /\ Forall (fun t => len t <= TWEET_LIMIT - 20) (removelast tweets).
Proof.
  destruct (split_into_tweets_splits content) as [tweets [Run S]].
  exists tweets. split; [assumption|].
  apply Forall_forall. intros t Hin.
  exact (splits_margin _ _ _ TWEET_LIMIT_margin S t Hin).
Qed.

(** X3. The number of fragments follows the trimmed content: none when it
    is empty, exactly one (the trimmed content) when it has between 1 and
    260 characters, at least two when it has more than 260. *)
Theorem fragment_count (content : str) :
  exists tweets,
    _split_into_tweets content = Returned tweets
    /\ ((clean_and_trim content = [] /\ tweets = [])
        \/ (1 <= len (clean_and_trim content) <= TWEET_LIMIT
            /\ tweets = [clean_and_trim content])
        \/ (TWEET_LIMIT < len (clean_and_trim content)
            /\ (2 <= length tweets)%nat)).
Proof.
  destruct (split_into_tweets_splits content) as [tweets [Run S]].
  exists tweets. split; [assumption|].
  destruct S as [r E|r Hne Hfit|r k rest Hlong R S].
  - left. auto.
  - right. left. split; [|reflexivity]. split; [|assumption].
    unfold len. destruct (clean_and_trim r); [congruence | simpl length; lia].
  - right. right. split; [assumption|].
    destruct (find_sentence_boundary_long _ _ TWEET_LIMIT_margin Hlong)
      as [k' [R' [Hk _]]].
    assert (k' = k) by congruence. subst k'.
    assert (Hrest : rest <> []).
    { apply (splits_nonblank _ _ _ S). unfold clean_and_trim.
      rewrite strip_idempotent.
      apply tail_nonblank. unfold clean_and_trim, TWEET_LIMIT in *. lia. }
    destruct rest; [congruence | simpl; lia].
Qed.



(** Scenario D with four letters and a space after the terminator: 261
    characters that trim to 260, returned as one fragment. *)
Example scenario_D_trailing_space :
  let content := repeat "a"%char 254 ++ of_string ". bbbb " in
  len content = 261
  /\ _split_into_tweets content
     = Returned [repeat "a"%char 254 ++ of_string ". bbbb"].
Proof. vm_compute. split; reflexivity. Qed.

(** X7. Splitting a returned fragment again returns that fragment alone. *)
Theorem fragment_is_fixed_point (content : str) :
  exists tweets,
    _split_into_tweets content = Returned tweets
    /\ Forall (fun t => _split_into_tweets t = Returned [t]) tweets.
Proof.
  destruct (split_into_tweets_splits content) as [tweets [Run S]].
  destruct (split_into_tweets_spec content) as [tweets' [_ [Run' [Hall _]]]].
  assert (tweets' = tweets) by congruence. subst tweets'.
  exists tweets. split; [assumption|].
  pose proof (splits_trimmed _ _ _ S) as Ht.
  rewrite Forall_forall in *. intros t Hin.
  specialize (Hall t Hin). specialize (Ht t Hin). cbv beta in Hall, Ht.
  unfold clean_and_trim in Ht.
  unfold _split_into_tweets. rewrite split_logged_short.
  - cbn [bind fst]. now rewrite Ht.
  - rewrite Ht. intros ->. unfold len in Hall. simpl in Hall. lia.
  - rewrite Ht. lia.
Qed.

(** X8. Whitespace before and after the content has no influence on the
    result. *)
Theorem padding_is_ignored (w1 content w2 : str) :
  all_space w1 = true -> all_space w2 = true ->
  _split_into_tweets (w1 ++ content ++ w2) = _split_into_tweets content.
Proof.
  intros W1 W2.
  destruct (split_into_tweets_splits content) as [tweets [Run S]].
  destruct (split_into_tweets_splits (w1 ++ content ++ w2)) as [tweets' [Run' S']].
  rewrite Run, Run'. f_equal.
  eapply (splits_functional _ _ _ TWEET_LIMIT_margin S); [|exact S'].
  unfold clean_and_trim. now apply strip_padding.
Qed.

Lemma padding_is_ignored_witness :
  _split_into_tweets (of_string "  " ++ of_string "Hello world." ++ of_string " ")
  = _split_into_tweets (of_string "Hello world.").
Proof.
  apply (padding_is_ignored (of_string "  ") (of_string "Hello world.")
           (of_string " ")); reflexivity.
Defined.

(** ** Words are not broken *)

Lemma run_ok_mono (s : str) : forall n m,
  (n <= m)%nat -> run_ok n s = true -> run_ok m s = true.
Proof.
  induction s as [|c s IH]; intros n m Hle H; [reflexivity|].
  simpl in *. destruct (Ascii.eqb c " "); [assumption|].
  destruct n as [|n]; [discriminate|].
  destruct m as [|m]; [lia|]. apply (IH n); [lia | assumption].
Qed.

Lemma run_ok_suffix (pre s : str) : forall n,
  (n <= 240)%nat -> run_ok n (pre ++ s) = true -> run_ok 240 s = true.
Proof.
  induction pre as [|c pre IH]; intros n Hn H.
  - now apply (run_ok_mono s n).
  - simpl in H. destruct (Ascii.eqb c " ").
    + now apply (IH 240%nat).
    + destruct n as [|n]; [discriminate|]. apply (IH n); [lia | assumption].
Qed.

Lemma run_ok_prefix (s post : str) : forall n,
  run_ok n (s ++ post) = true -> run_ok n s = true.
Proof.
  induction s as [|c s IH]; intros n H; [reflexivity|].
  simpl in *. destruct (Ascii.eqb c " "); [now apply IH|].
  destruct n as [|n]; [discriminate|]. now apply IH.
Qed.

(** A part of a text without long words has no long word. *)
Lemma no_long_word_part (pre s post : str) :
  no_long_word (pre ++ s ++ post) = true -> no_long_word s = true.
Proof.
  unfold no_long_word. intros H.
  apply (run_ok_suffix pre) in H; [|lia]. now apply run_ok_prefix in H.
Qed.

Lemma run_ok_window (s : str) : forall n,
  run_ok n s = true -> (n < length s)%nat ->
  exists j, (j <= n)%nat /\ nth_error s j = Some " "%char.
Proof.
  induction s as [|c s IH]; intros n H Hlen; [simpl in Hlen; lia|].
  simpl in H. destruct (Ascii.eqb c " ") eqn:Ec.
  - apply Ascii.eqb_eq in Ec. subst c. exists 0%nat. split; [lia | reflexivity].
  - destruct n as [|n]; [discriminate|].
    destruct (IH n H) as [j [Hj Nj]]; [simpl in Hlen; lia|].
    exists (S j). split; [lia | exact Nj].
Qed.

Lemma word_pieces_space_left (w : str) (ts : list str) (s : str) :
  all_space w = true -> word_pieces ts s -> word_pieces ts (w ++ s).
Proof.
  intros W P. destruct P as [w' W'|w' t w'' W' W''|w' t c t' ts rest W' Hc P].
  - apply word_pieces_end. now rewrite all_space_app, W, W'.
  - rewrite app_assoc. apply word_pieces_last; [|assumption].
    now rewrite all_space_app, W, W'.
  - rewrite app_assoc. apply word_pieces_next; try assumption.
    now rewrite all_space_app, W, W'.
Qed.

Lemma word_pieces_space_right (w : str) (ts : list str) (s : str) :
  all_space w = true -> word_pieces ts s -> word_pieces ts (s ++ w).
Proof.
  intros W P.
  induction P as [w' W'|w' t w'' W' W''|w' t c t' ts rest W' Hc P IH].
  - apply word_pieces_end. now rewrite all_space_app, W', W.
  - rewrite <- !app_assoc. apply word_pieces_last; [assumption|].
    now rewrite all_space_app, W'', W.
  - rewrite <- !app_assoc. simpl. apply word_pieces_next; assumption.
Qed.

(** A gap of whitespace that is not empty, put before the pieces that
    follow a fragment. *)
Lemma word_pieces_gap (w t g : str) (t' : str) (ts : list str) (rest : str) :
  all_space w = true -> all_space g = true -> g <> [] ->
  word_pieces (t' :: ts) rest ->
  word_pieces (t :: t' :: ts) (w ++ t ++ g ++ rest).
Proof.
  intros W G Hg P. destruct g as [|c g]; [congruence|].
  simpl in G. apply andb_prop in G as [Hc G].
  simpl. apply word_pieces_next; try assumption.
  now apply word_pieces_space_left.
Qed.

(** On a trimmed text longer than the limit that has no long word, the
    character at the cut is whitespace. *)
Lemma cut_at_whitespace (remaining : str) (k : Z) :
  TWEET_LIMIT < len (clean_and_trim remaining) ->
  no_long_word (clean_and_trim remaining) = true ->
  find_sentence_boundary (clean_and_trim remaining) TWEET_LIMIT = Returned k ->
  1 <= k <= TWEET_LIMIT - 20
  /\ exists c, index (clean_and_trim remaining) k = Returned c
               /\ isspace c = true.
Proof.
  intros Hlong Hw R. set (text := clean_and_trim remaining) in *.
  destruct (find_sentence_boundary_long _ _ TWEET_LIMIT_margin Hlong)
    as [k' [R' [Hk Hcase]]].
  assert (k' = k) by congruence. subst k'. split; [assumption|].
  destruct (index_inside text k) as [c Hc]; [unfold TWEET_LIMIT in *; lia|].
  exists c. split; [assumption|].
  destruct Hcase as [[Ek _]|[_ [[Sk _]|[_ Hnosp]]]].
  - rewrite ending_at_chars in Ek by (unfold TWEET_LIMIT in *; lia).
    apply andb_prop in Ek as [_ Gk]. unfold gap_at in Gk. rewrite Hc in Gk.
    apply orb_prop in Gk as [E|E]; apply Ascii.eqb_eq in E; subst c; reflexivity.
  - unfold space_at in Sk. rewrite Hc in Sk.
    apply Ascii.eqb_eq in Sk. subst c. reflexivity.
  - exfalso. unfold no_long_word in Hw.
    destruct (run_ok_window text 240 Hw) as [j [Hj Nj]];
      [unfold len, TWEET_LIMIT in Hlong; lia|].
    destruct j as [|j].
    + unfold text, clean_and_trim in Nj.
      destruct (strip remaining) as [|c0 r0] eqn:Es; [discriminate|].
      apply strip_head in Es. simpl in Nj. injection Nj as ->. discriminate.
    + assert (Hs : space_at text (Z.of_nat (S j)) = true).
      { unfold space_at. rewrite (index_nth _ _ " "%char); [reflexivity | lia |].
        now rewrite Nat2Z.id. }
      rewrite Hnosp in Hs by (unfold TWEET_LIMIT; lia). discriminate.
Qed.

Lemma index_nth_inv (s : str) (i : Z) (c : ascii) :
  0 <= i -> index s i = Returned c -> nth_error s (Z.to_nat i) = Some c.
Proof.
  intros Hi. unfold index.
  replace (i <? 0) with false by (symmetry; apply Z.ltb_ge; lia).
  destruct ((0 <=? i) && (i <? len s)); [|discriminate].
  destruct (nth_error s (Z.to_nat i)); [|discriminate].
  now intros [= ->].
Qed.

Lemma skipn_nth (s : str) : forall n c,
  nth_error s n = Some c -> skipn n s = c :: skipn (S n) s.
Proof.
  induction s as [|x s IH]; intros n c N; [destruct n; discriminate|].
  destruct n as [|n].
  - simpl in N. injection N as ->. reflexivity.
  - simpl in N. change (skipn (S n) (x :: s)) with (skipn n s).
    rewrite (IH n c N). reflexivity.
Qed.

Lemma splits_word_pieces (remaining : str) (tweets : list str) :
  splits TWEET_LIMIT remaining tweets ->
  no_long_word remaining = true ->
  word_pieces tweets remaining.
Proof.
  induction 1 as [r E|r Hne Hfit|r k rest Hlong R Sp IH]; intros Hw.
  - apply word_pieces_end. now apply strip_nil_all_space.
  - destruct (strip_split r) as [w1 [w2 [Er [W1 W2]]]].
    rewrite Er at 2. now apply word_pieces_last.
  - destruct (strip_split r) as [w1 [w2 [Er [W1 W2]]]].
    unfold clean_and_trim in *. set (text := strip r) in *.
    assert (Hwt : no_long_word text = true)
      by (rewrite Er in Hw; exact (no_long_word_part _ _ _ Hw)).
    destruct (cut_at_whitespace r k Hlong Hwt R) as [Hk [c [Hc Sc]]].
    fold text in Hc.
    set (head := slice text None (Some k)) in *.
    set (tail := slice text (Some k) None) in *.
    assert (Hcut : head ++ tail = text) by apply slice_cut.
    assert (Etail : tail = c :: skipn (S (Z.to_nat k)) text).
    { unfold tail. rewrite slice_from, clamp_inside
        by (unfold TWEET_LIMIT in *; lia).
      apply skipn_nth, index_nth_inv; [lia | assumption]. }
    set (tail' := skipn (S (Z.to_nat k)) text) in *.
    assert (Est : strip tail = strip tail').
    { rewrite Etail.
      replace (c :: tail') with ([c] ++ tail' ++ []) by (simpl; now rewrite app_nil_r).
      apply strip_padding; [simpl; now rewrite Sc | reflexivity]. }
    destruct (strip_split head) as [a1 [a2 [Ea [A1 A2]]]].
    destruct (strip_split tail') as [b1 [b2 [Eb [B1 B2]]]].
    rewrite <- Est in Eb.
    assert (Hrest : rest <> []).
    { apply (splits_nonblank _ _ _ Sp). unfold clean_and_trim.
      rewrite strip_idempotent. apply tail_nonblank.
      change (0 <= k < len text). unfold TWEET_LIMIT in *. lia. }
    assert (Etext : text = (head ++ c :: b1) ++ strip tail ++ b2).
    { transitivity (head ++ c :: tail').
      - rewrite <- Etail. symmetry. exact Hcut.
      - rewrite Eb. rewrite <- app_assoc. reflexivity. }
    assert (P : word_pieces rest (strip tail)).
    { apply IH. apply (no_long_word_part (head ++ c :: b1) (strip tail) b2).
      rewrite <- Etext. exact Hwt. }
    destruct rest as [|t' ts]; [congruence|].
    remember (strip head) as th. remember (strip tail) as tt.
    assert (Er' : r = (w1 ++ a1) ++ th ++ (a2 ++ [c]) ++ (b1 ++ tt ++ (b2 ++ w2))).
    { rewrite Er, Etext, Ea. repeat rewrite <- app_assoc. reflexivity. }
    rewrite Er'. apply word_pieces_gap.
    + now rewrite all_space_app, W1, A1.
    + rewrite all_space_app, A2. simpl. now rewrite Sc.
    + destruct a2; discriminate.
    + apply word_pieces_space_left; [assumption|].
      apply word_pieces_space_right; [|assumption].
      now rewrite all_space_app, B2, W2.
Qed.

(** X4. When every 241 consecutive characters of the content hold a space,
    no word is broken: the fragments are separated, in the content, by at
    least one whitespace character, and nothing but whitespace is left
    out. *)
Theorem words_are_not_broken (content : str) :
  no_long_word content = true ->
  exists tweets,
    _split_into_tweets content = Returned tweets
    /\ word_pieces tweets content.
Proof.
  intros Hw. destruct (split_into_tweets_splits content) as [tweets [Run S]].
  exists tweets. split; [assumption|]. now apply splits_word_pieces.
Qed.

Lemma words_are_not_broken_witness :
  exists tweets,
    _split_into_tweets (concat (repeat (of_string "word ") 300)) = Returned tweets
    /\ word_pieces tweets (concat (repeat (of_string "word ") 300)).
Proof.
  apply (words_are_not_broken (concat (repeat (of_string "word ") 300))).
  vm_compute. reflexivity.
Defined.

(** ** The verification pass on any list *)

Lemma set_item_middle (pre : list str) (t x : str) (rest : list str) :
  set_item (pre ++ t :: rest) (length pre) x = pre ++ x :: rest.
Proof. induction pre as [|p pre IH]; simpl; [reflexivity | now rewrite IH]. Qed.

Lemma insert_middle (pre : list str) (x : str) (rest : list str) :
  insert (pre ++ rest) (length pre) x = pre ++ x :: rest.
Proof.
  unfold insert. rewrite firstn_app, skipn_app, Nat.sub_diag.
  rewrite firstn_all, skipn_all. simpl. now rewrite app_nil_r.
Qed.

Lemma total_length_cons (t : str) (rest : list str) :
  total_length (t :: rest) = (length t + total_length rest)%nat.
Proof. reflexivity. Qed.

Lemma length_snoc (pre : list str) (x : str) :
  length (pre ++ [x]) = S (length pre).
Proof. rewrite length_app. simpl. lia. Qed.

(** From index [length pre] on, with enough fuel, the pass leaves [pre] as
    it is, cuts what follows into pieces within the limit, keeps the
    visible text, and logs one warning for each piece it inserts. *)
Lemma verify_tweets_from (limit : Z) (Hlimit : 20 < limit) (fuel : nat) :
  forall pre rest log,
    (length rest + total_length rest < fuel)%nat ->
    exists rest' log',
      verify_tweets fuel limit (length pre) (pre ++ rest) log
      = Returned (pre ++ rest', log ++ log')
      /\ Forall (fun t => len t <= limit) rest'
      /\ visible (concat rest') = visible (concat rest)
      /\ length rest' = (length rest + length log')%nat.
Proof.
  induction fuel as [|fuel IH]; intros pre rest log Hfuel; [lia|].
  cbn [verify_tweets].
  destruct rest as [|t rest].
  { exists [], []. rewrite !app_nil_r.
    replace (nth_error pre (length pre)) with (@None str)
      by (symmetry; apply nth_error_None; lia).
    repeat split; constructor. }
  rewrite nth_error_app2, Nat.sub_diag by lia. cbn [nth_error].
  rewrite total_length_cons in Hfuel. cbn [length] in Hfuel.
  destruct (limit <? len t) eqn:Hlong.
  - apply Z.ltb_lt in Hlong.
    set (first_part := clean_and_trim (slice t None (Some (limit - 20)))).
    set (second_part := clean_and_trim (slice t (Some (limit - 20)) None)).
    assert (H1 : len first_part <= limit - 20).
    { pose proof (strip_len (slice t None (Some (limit - 20)))) as H.
      rewrite slice_upto_len in H by lia. exact H. }
    assert (H2 : len second_part <= len t - (limit - 20)).
    { pose proof (strip_len (slice t (Some (limit - 20)) None)) as H.
      rewrite slice_from_len in H by lia. exact H. }
    rewrite set_item_middle.
    replace (pre ++ first_part :: rest) with ((pre ++ [first_part]) ++ rest)
      by (rewrite <- app_assoc; reflexivity).
    rewrite <- (length_snoc pre first_part), insert_middle.
    destruct (IH (pre ++ [first_part]) (second_part :: rest)
                 (log ++ [ForcingSplit (S (length pre)) (len t)]))
      as [rest' [log' [Run [Hall [Hv Hn]]]]].
    { rewrite total_length_cons. cbn [length]. unfold len in *. lia. }
    rewrite length_snoc in *.
    exists (first_part :: rest'), (ForcingSplit (S (length pre)) (len t) :: log').
    rewrite Run, <- !app_assoc. split; [reflexivity|]. split; [|split].
    + constructor; [lia | assumption].
    + cbn [concat] in *. rewrite !visible_app in *. rewrite Hv.
      unfold first_part, second_part, clean_and_trim.
      rewrite !visible_strip, app_assoc, <- visible_app, slice_cut.
      reflexivity.
    + cbn [length] in *. lia.
  - apply Z.ltb_ge in Hlong.
    replace (pre ++ t :: rest) with ((pre ++ [t]) ++ rest)
      by (rewrite <- app_assoc; reflexivity).
    rewrite <- (length_snoc pre t).
    destruct (IH (pre ++ [t]) rest log) as [rest' [log' [Run [Hall [Hv Hn]]]]];
      [lia|].
    exists (t :: rest'), log'.
    rewrite Run, <- !app_assoc. split; [reflexivity|]. split; [|split].
    + constructor; assumption.
    + cbn [concat]. rewrite !visible_app, Hv. reflexivity.
    + cbn [length]. lia.
Qed.

(** X5. On its own, the verification pass repairs any list of tweets: given
    more fuel than the list has elements and characters, it returns a list
    whose elements all have at most 260 characters (a piece it inserts is
    checked in turn), with the same non-whitespace characters in the same
    order, and it logs one warning for each element it adds. *)
Theorem verification_pass_repairs (fuel : nat) (tweets : list str) :
  (length tweets + total_length tweets < fuel)%nat ->
  exists result log,
    verify_tweets fuel TWEET_LIMIT 0 tweets [] = Returned (result, log)
    /\ Forall (fun t => len t <= TWEET_LIMIT) result
    /\ visible (concat result) = visible (concat tweets)
    /\ length result = (length tweets + length log)%nat.
Proof.
  intros Hfuel.
  exact (verify_tweets_from TWEET_LIMIT TWEET_LIMIT_margin fuel [] tweets [] Hfuel).
Qed.

Lemma verification_pass_repairs_witness :
  exists result log,
    verify_tweets 700 TWEET_LIMIT 0 [repeat "a"%char 600; of_string "ok"] []
    = Returned (result, log)
    /\ Forall (fun t => len t <= TWEET_LIMIT) result.
Proof.
  destruct (verification_pass_repairs 700 [repeat "a"%char 600; of_string "ok"])
    as [result [log [Run [Hall _]]]].
  - vm_compute. lia.
  - exists result, log. split; assumption.
Defined.

Example verification_pass_twice :
  verify_tweets 10 TWEET_LIMIT 0 [repeat "a"%char 600; of_string "ok"] []
  = Returned ([repeat "a"%char 240; repeat "a"%char 240; repeat "a"%char 120;
               of_string "ok"],
              [ForcingSplit 1 600; ForcingSplit 2 360]).
Proof. vm_compute. reflexivity. Qed.

(** X6. [find_sentence_boundary] never raises, whatever the text and
    whatever [max_length]: every [text[i]] it evaluates is inside the text.
    It returns the length of a text that fits; on a text that does not fit
    it returns a cut of [1, max_length - 20] when [max_length] is above 20,
    and the number [max_length - 20], zero or negative, otherwise. *)
Theorem boundary_search_is_safe (text : str) (max_length : Z) :
  exists k,
    find_sentence_boundary text max_length = Returned k
    /\ ((len text <= max_length /\ k = len text)
        \/ (max_length < len text /\ 20 < max_length
            /\ 1 <= k <= max_length - 20)
        \/ (max_length < len text /\ max_length <= 20
            /\ k = max_length - 20)).
Proof.
  assert (Hlen : 0 <= len text) by (unfold len; lia).
  destruct (Z.le_gt_cases (len text) max_length) as [Hfit|Hlong].
  { exists (len text). split; [|left; auto].
    unfold find_sentence_boundary.
    now replace (len text <=? max_length) with true
      by (symmetry; now apply Z.leb_le). }
  destruct (Z.lt_total 20 max_length) as [Hbig|[Heq|Hsmall]].
  - destruct (find_sentence_boundary_long _ _ Hbig Hlong) as [k [R [Hk _]]].
    exists k. split; [assumption|]. right. left. auto.
  - subst max_length. exists 0. split; [|right; right; lia].
    unfold find_sentence_boundary.
    replace (len text <=? 20) with false by (symmetry; apply Z.leb_gt; lia).
    replace (Z.min (20 - 20) (len text)) with 0 by lia. reflexivity.
  - exists (max_length - 20). split; [|right; right; lia].
    unfold find_sentence_boundary.
    replace (len text <=? max_length) with false
      by (symmetry; apply Z.leb_gt; lia).
    replace (Z.min (max_length - 20) (len text)) with (max_length - 20) by lia.
    replace (Z.to_nat (max_length - 20)) with 0%nat by lia.
    reflexivity.
Qed.

(** ** Programs against the browser *)

Lemma runs_ret {A : Type} (a : A) (Q : result A -> trace -> Prop) :
  Q (Done a) [] -> runs (ret a) Q.
Proof. intros H e h. exists (Done a), []. now rewrite app_nil_r. Qed.

Lemma runs_raise {A : Type} (Q : result A -> trace -> Prop) :
  Q Exception [] -> runs raise Q.
Proof. intros H e h. exists Exception, []. now rewrite app_nil_r. Qed.

Lemma runs_perform (c : call) (Q : result value -> trace -> Prop) :
  (forall v, Q (Done v) [(c, Returns v)]) ->
  Q Exception [(c, Raises)] ->
  runs (perform c) Q.
Proof.
  intros Hv Hx e h. unfold perform. destruct (e h c) as [v|].
  - exists (Done v), [(c, Returns v)]. auto.
  - exists Exception, [(c, Raises)]. auto.
Qed.

Lemma runs_bind {A B : Type} (m : prog A) (k : A -> prog B)
      (Q : result B -> trace -> Prop) :
  runs m (fun r t1 =>
            match r with
            | Done a => runs (k a) (fun r' t2 => Q r' (t1 ++ t2))
            | Exception => Q Exception t1
            end) ->
  runs (pbind m k) Q.
Proof.
  intros Hm e h. destruct (Hm e h) as [r [t1 [E H]]].
  unfold pbind. rewrite E. destruct r as [a|].
  - destruct (H e (h ++ t1)) as [r' [t2 [E' H']]].
    exists r', (t1 ++ t2). now rewrite app_assoc.
  - exists Exception, t1. auto.
Qed.

Lemma runs_try {A : Type} (body handler : prog A)
      (Q : result A -> trace -> Prop) :
  runs body (fun r t1 =>
               match r with
               | Done a => Q (Done a) t1
               | Exception => runs handler (fun r' t2 => Q r' (t1 ++ t2))
               end) ->
  runs (try_except body handler) Q.
Proof.
  intros Hb e h. destruct (Hb e h) as [r [t1 [E H]]].
  unfold try_except. rewrite E. destruct r as [a|].
  - exists (Done a), t1. auto.
  - destruct (H e (h ++ t1)) as [r' [t2 [E' H']]].
    exists r', (t1 ++ t2). now rewrite app_assoc.
Qed.

Lemma runs_weaken {A : Type} (p : prog A) (P Q : result A -> trace -> Prop) :
  runs p P -> (forall r t, P r t -> Q r t) -> runs p Q.
Proof.
  intros Hp HPQ e h. destruct (Hp e h) as [r [t [E H]]].
  exists r, t. auto.
Qed.

Lemma runs_run {A : Type} (p : prog A) (Q : result A -> trace -> Prop) :
  runs p Q -> forall e, exists r h, run p e = (r, h) /\ Q r h.
Proof. intros Hp e. exact (Hp e []). Qed.

Lemma returned_app (a b : trace) : returned (a ++ b) = returned a ++ returned b.
Proof.
  induction a as [|[c [v|]] a IH]; simpl; [reflexivity | now rewrite IH | exact IH].
Qed.

Lemma actions_app (a b : trace) : actions (a ++ b) = actions a ++ actions b.
Proof. unfold actions. now rewrite returned_app, filter_app. Qed.

Lemma entered_app (a b : trace) : entered (a ++ b) = entered a ++ entered b.
Proof.
  induction a as [|[c r] a IH]; [reflexivity|].
  destruct c, r; simpl; rewrite ?IH; reflexivity.
Qed.

Lemma plain_clicks_app (a b : trace) :
  plain_clicks (a ++ b) = plain_clicks a ++ plain_clicks b.
Proof.
  induction a as [|[c r] a IH]; [reflexivity|].
  destruct c as [| | | | | | | s [|ms|] | | | | | | |], r; simpl; rewrite ?IH;
    reflexivity.
Qed.

(** One step of a proof about a program: the rule for the construct at
    its head. *)
Ltac wp_step :=
  lazymatch goal with
  | |- runs (ret _) _ => apply runs_ret
  | |- runs raise _ => apply runs_raise
  | |- runs (pbind _ _) _ => apply runs_bind
  | |- runs (try_except _ _) _ => apply runs_try
  | |- runs (perform _) _ => apply runs_perform; [intros ?|]
  end;
  cbv beta iota; cbn [negb].

Ltac wp := repeat wp_step.

(** The guard: it lets the method go on only when [is_logged_in] holds;
    otherwise the one call made is [login()], and the method stops, with
    [False] when the login returns and with its exception when it raises. *)
Lemma logged_in_or_login_spec (is_logged_in : bool) :
  runs (logged_in_or_login is_logged_in)
       (fun r t =>
          if is_logged_in then r = Done true /\ t = []
          else (r = Exception /\ t = [(Login, Raises)])
               \/ (r = Done false /\ exists v, t = [(Login, Returns v)])).
Proof.
  destruct is_logged_in; unfold logged_in_or_login, login.
  - wp. auto.
  - wp.
    + right. simpl. eauto.
    + left. auto.
Qed.

(** The probing loop never raises; it returns [True] after exactly one
    action that returned, on one of its selectors, and [False] after none. *)
Lemma probe_spec (action : str -> call) (selectors : list str) :
  (forall selector, is_action (action selector) = true) ->
  runs (probe action selectors)
       (fun r t =>
          (r = Done false /\ actions t = [])
          \/ (r = Done true
              /\ exists selector, In selector selectors
                                  /\ actions t = [action selector])).
Proof.
  intros Hact. induction selectors as [|selector rest IH]; cbn [probe].
  - wp. left. auto.
  - wp.
    + destruct (truthy v).
      * wp.
        -- right. split; [reflexivity|]. exists selector. split; [now left|].
           unfold actions. simpl. now rewrite Hact.
        -- eapply runs_weaken; [exact IH|]. cbv beta.
           intros r t [[-> Ht]|[-> [s [Hin Ht]]]]; rewrite !actions_app, Ht.
           ++ left. auto.
           ++ right. split; [reflexivity|]. exists s. split; [now right | reflexivity].
      * wp. eapply runs_weaken; [exact IH|]. cbv beta.
        intros r t [[-> Ht]|[-> [s [Hin Ht]]]]; rewrite !actions_app, Ht.
        -- left. auto.
        -- right. split; [reflexivity|]. exists s. split; [now right | reflexivity].
    + wp. eapply runs_weaken; [exact IH|]. cbv beta.
      intros r t [[-> Ht]|[-> [s [Hin Ht]]]]; rewrite !actions_app, Ht.
      * left. auto.
      * right. split; [reflexivity|]. exists s. split; [now right | reflexivity].
Qed.

(** ** [post_comment] *)

Lemma post_comment_spec (tweet_url comment : str) :
  runs (post_comment true tweet_url comment)
       (fun r t =>
          exists b, r = Done b
          /\ exists x y z n,
              In x reply_selectors /\ In y textarea_selectors
              /\ In z post_selectors
              /\ actions t = firstn n (comment_steps comment x y z)
              /\ (b = true -> n = 3%nat)).
Proof.
  assert (Hx : In (testid "reply") reply_selectors) by (now left).
  assert (Hy : In (testid "tweetTextarea_0") textarea_selectors) by (now left).
  assert (Hz : In (testid "tweetButton") post_selectors) by (now left).
  unfold post_comment, logged_in_or_login. wp.
  2: { exists false. split; [reflexivity|].
       exists (testid "reply"), (testid "tweetTextarea_0"), (testid "tweetButton"), 0%nat.
       repeat split; auto. discriminate. }
  2: { exists false. split; [reflexivity|].
       exists (testid "reply"), (testid "tweetTextarea_0"), (testid "tweetButton"), 0%nat.
       repeat split; auto. discriminate. }
  eapply runs_weaken; [apply probe_spec; reflexivity|]. cbv beta.
  intros r t1 [[-> H1]|[-> [x [Hx' H1]]]]; cbn [negb]; wp.
  { exists false. split; [reflexivity|].
    exists (testid "reply"), (testid "tweetTextarea_0"), (testid "tweetButton"), 0%nat.
    repeat split; auto; [|discriminate].
    rewrite !actions_app, H1. reflexivity. }
  2: { exists false. split; [reflexivity|].
       exists x, (testid "tweetTextarea_0"), (testid "tweetButton"), 1%nat.
       repeat split; auto; [|discriminate].
       rewrite !actions_app, H1. reflexivity. }
  eapply runs_weaken;
    [apply (probe_spec (fun selector => Fill selector comment)); reflexivity|].
  cbv beta.
  intros r t2 [[-> H2]|[-> [y [Hy' H2]]]]; cbn [negb]; wp.
  { exists false. split; [reflexivity|].
    exists x, (testid "tweetTextarea_0"), (testid "tweetButton"), 1%nat.
    repeat split; auto; [|discriminate].
    rewrite !actions_app, H1, H2. reflexivity. }
  2: { exists false. split; [reflexivity|].
       exists x, y, (testid "tweetButton"), 2%nat.
       repeat split; auto; [|discriminate].
       rewrite !actions_app, H1, H2. reflexivity. }
  eapply runs_weaken; [apply probe_spec; reflexivity|]. cbv beta.
  intros r t3 [[-> H3]|[-> [z [Hz' H3]]]]; cbn [negb]; wp.
  - exists false. split; [reflexivity|].
    exists x, y, (testid "tweetButton"), 2%nat.
    repeat split; auto; [|discriminate].
    rewrite !actions_app, H1, H2, H3. reflexivity.
  - exists true. split; [reflexivity|].
    exists x, y, z, 3%nat. repeat split; auto.
    rewrite !actions_app, H1, H2, H3. reflexivity.
  - exists false. split; [reflexivity|].
    exists x, y, z, 3%nat. repeat split; auto.
    rewrite !actions_app, H1, H2, H3. reflexivity.
Qed.

(** X9. With a page it can use, [post_comment] never raises, and its
    clicks and fills that return are, in this order: one click on a reply
    selector, one fill of the comment on a textarea selector, one click on a
    post selector.  It stops at the first step that fails, and returns
    [True] only after the three. *)
Theorem post_comment_in_order (e : env) (tweet_url comment : str) :
  exists b h,
    run (post_comment true tweet_url comment) e = (Done b, h)
    /\ exists x y z n,
        In x reply_selectors /\ In y textarea_selectors
        /\ In z post_selectors
        /\ actions h = firstn n (comment_steps comment x y z)
        /\ (b = true -> n = 3%nat).
Proof.
  destruct (runs_run _ _ (post_comment_spec tweet_url comment) e)
    as [r [h [Run [b [-> H]]]]].
  exists b, h. split; assumption.
Qed.

(** X10. Called while [is_logged_in] is false, [post_tweet],
    [post_tweet_thread], [get_latest_tweet] and [post_comment] never touch
    the page: their only call is [login()], which has no [return] statement,
    so that a login that succeeds is taken for a failure and the method
    returns [False] ([None] for [get_latest_tweet]); a login that raises is
    not caught. *)
Theorem not_logged_in_never_posts
        (e : env) (content : str) (content_list : list str)
        (user tweet_url comment : str) :
  stops_at_login (post_tweet false content) false e
  /\ stops_at_login (post_tweet_thread false content_list) false e
  /\ stops_at_login (get_latest_tweet false user) None e
  /\ stops_at_login (post_comment false tweet_url comment) false e.
Proof.
  unfold stops_at_login, run, post_tweet, post_tweet_thread, get_latest_tweet,
    post_comment, logged_in_or_login, login, pbind, perform, ret.
  destruct (e [] Login); auto.
Qed.

(** ** [post_tweet_thread] *)

Lemma find_add_button_spec (selectors : list str) :
  runs (find_add_button selectors)
       (fun r t => (exists b, r = Done b)
                   /\ entered t = [] /\ plain_clicks t = []).
Proof.
  induction selectors as [|selector rest IH]; cbn [find_add_button].
  - wp. eauto.
  - assert (Hnext : forall t0, entered t0 = [] -> plain_clicks t0 = [] ->
              runs (find_add_button rest)
                   (fun r t => (exists b, r = Done b)
                               /\ entered (t0 ++ t) = []
                               /\ plain_clicks (t0 ++ t) = [])).
    { intros t0 E0 P0. eapply runs_weaken; [exact IH|]. cbv beta.
      intros r t [Hr [Et Pt]]. rewrite entered_app, plain_clicks_app, E0, P0.
      auto. }
    wp.
    + destruct (truthy v); wp; try (apply Hnext; reflexivity); eauto.
    + apply Hnext; reflexivity.
Qed.

Lemma add_tweet_spec (j : nat) (tweet_content : str) :
  runs (add_tweet (S j) tweet_content)
       (fun r t =>
          plain_clicks t = []
          /\ r <> Done (Some true)
          /\ (entered t = [] \/ entered t = [(tweet_textarea j, tweet_content)])
          /\ (r = Done None -> entered t = [(tweet_textarea j, tweet_content)])).
Proof.
  unfold add_tweet. cbn [Nat.sub]. rewrite Nat.sub_0_r.
  wp_step. wp_step.
  eapply runs_weaken; [apply find_add_button_spec|]. cbv beta.
  intros r t0 [[b ->] [E0 P0]]. cbv beta iota.
  destruct b; cbn [negb]; wp;
    try solve [rewrite ?entered_app, ?plain_clicks_app, ?E0, ?P0; simpl;
               repeat split; auto; discriminate].
  destruct (truthy v); cbn [negb]; wp;
    solve [rewrite ?entered_app, ?plain_clicks_app, ?E0, ?P0; simpl;
           repeat split; auto; discriminate].
Qed.

Lemma add_tweets_spec (contents : list str) : forall j,
  runs (add_tweets (S j) contents)
       (fun r t =>
          plain_clicks t = []
          /\ r <> Done (Some true)
          /\ (exists n, entered t = firstn n (thread_fills j contents))
          /\ (r = Done None -> entered t = thread_fills j contents)).
Proof.
  induction contents as [|c rest IH]; intros j; cbn [add_tweets].
  - wp. repeat split; [discriminate | now exists 0%nat].
  - wp_step. eapply runs_weaken; [apply add_tweet_spec|]. cbv beta.
    intros r t1 [P1 [Hne [Hent Hnone]]].
    assert (Hpre : exists n, entered t1 = firstn n (thread_fills j (c :: rest))).
    { destruct Hent as [E|E]; rewrite E; [now exists 0%nat | now exists 1%nat]. }
    destruct r as [[b|]|].
    + wp. rewrite app_nil_r. repeat split; auto; discriminate.
    + specialize (Hnone eq_refl).
      eapply runs_weaken; [apply (IH (S j))|]. cbv beta.
      intros r t2 [P2 [Hne2 [[n E2] Hnone2]]].
      rewrite entered_app, plain_clicks_app, P1, P2, Hnone, E2.
      repeat split; auto.
      * now exists (S n).
      * intros ->. rewrite <- E2, (Hnone2 eq_refl). reflexivity.
    + repeat split; auto. discriminate.
Qed.

Lemma tweet_textarea_0 : testid "tweetTextarea_0" = tweet_textarea 0.
Proof. reflexivity. Qed.

(** The end of a path through [post_tweet_thread]: the facts about the
    trace follow from what is known of its parts. *)
Ltac thread_leaf :=
  eexists; split; [reflexivity|];
  rewrite ?entered_app, ?plain_clicks_app; simpl; rewrite ?app_nil_r;
  repeat match goal with
         | H : entered _ = _ |- _ => rewrite H
         | H : plain_clicks _ = _ |- _ => rewrite H
         end;
  simpl; rewrite ?app_nil_r;
  split;
  [ first [ now exists 0%nat
          | now exists 1%nat
          | eexists (S _); reflexivity
          | eexists (S (length _)); simpl; now rewrite firstn_all ]
  | split;
    [ first [ discriminate
            | intros _; split; [discriminate | reflexivity] ]
    | first [ now left | right; split; reflexivity ] ] ].

(** Logged in, [post_tweet_thread] never raises; the fills that return are
    the head of what the thread must enter; the result is [True] only when
    all of it is entered, and the post button is clicked only then. *)
Lemma post_tweet_thread_spec (content_list : list str) :
  runs (post_tweet_thread true content_list)
       (fun r t =>
          exists b, r = Done b
          /\ (exists n, entered t = firstn n (thread_fills 0 content_list))
          /\ (b = true -> content_list <> []
                          /\ entered t = thread_fills 0 content_list)
          /\ (plain_clicks t = []
              \/ (plain_clicks t = [testid "tweetButton"]
                  /\ entered t = thread_fills 0 content_list))).
Proof.
  unfold post_tweet_thread, logged_in_or_login.
  destruct content_list as [|first_tweet_content others].
  { wp; thread_leaf. }
  rewrite tweet_textarea_0. cbn [thread_fills].
  wp; try solve [thread_leaf].
  eapply runs_weaken; [apply (add_tweets_spec others 1)|]. cbv beta.
  intros r t [Pt [Hne [[n En] Hnone]]].
  destruct r as [[[|]|]|]; [congruence| | |].
  - wp. thread_leaf.
  - specialize (Hnone eq_refl). clear En. wp.
    + match goal with |- context [truthy ?x] => destruct (truthy x) end;
        wp; thread_leaf.
    + thread_leaf.
  - wp. thread_leaf.
Qed.

(** X11. With a page it can use, [post_tweet_thread] never raises and
    enters the tweets in order, the tweet number [n] (from 0) in the textarea
    [tweetTextarea_n]: the fills that return are the first ones of that
    list, and the result is [True] only when the list is not empty and all
    of it is entered. *)
Theorem thread_entered_in_order (e : env) (content_list : list str) :
  exists b h,
    run (post_tweet_thread true content_list) e = (Done b, h)
    /\ (exists n, entered h = firstn n (thread_fills 0 content_list))
    /\ (b = true -> content_list <> []
                    /\ entered h = thread_fills 0 content_list).
Proof.
  destruct (runs_run _ _ (post_tweet_thread_spec content_list) e)
    as [r [h [Run [b [-> [Hpre [Htrue _]]]]]]].
  exists b, h. auto.
Qed.

(** X12. [post_tweet_thread] clicks the post button at most once, and only
    after every tweet of the list is entered: no incomplete thread is
    posted. *)
Theorem thread_posted_when_complete (e : env) (content_list : list str) :
  exists r h,
    run (post_tweet_thread true content_list) e = (r, h)
    /\ (plain_clicks h = []
        \/ (plain_clicks h = [testid "tweetButton"]
            /\ entered h = thread_fills 0 content_list)).
Proof.
  destruct (runs_run _ _ (post_tweet_thread_spec content_list) e)
    as [r [h [Run [b [-> [_ [_ Hclick]]]]]]].
  exists (Done b), h. auto.
Qed.

(** ** [post_tweet] *)

Lemma thread_fills_texts (contents : list str) : forall i,
  map snd (thread_fills i contents) = contents.
Proof.
  induction contents as [|c rest IH]; intros i; simpl; [reflexivity|].
  now rewrite IH.
Qed.

Lemma thread_fills_within (contents : list str) : forall i,
  Forall (fun t => len t <= TWEET_LIMIT) contents ->
  Forall (fun p => len (snd p) <= TWEET_LIMIT) (thread_fills i contents).
Proof.
  induction contents as [|c rest IH]; intros i H; simpl; [constructor|].
  inversion H; subst. constructor; auto.
Qed.

Lemma Forall_prefix {A : Type} (P : A -> Prop) (l : list A) : forall n,
  Forall P l -> Forall P (firstn n l).
Proof.
  induction l as [|x l IH]; intros n H; destruct n; simpl; try constructor;
    inversion H; subst; auto.
Qed.

Lemma post_tweet_long_spec (content : str) (tweets : list str) :
  280 < len content ->
  _split_into_tweets content = Returned tweets ->
  runs (post_tweet true content)
       (fun r t =>
          exists b, r = Done b
          /\ (exists n, entered t = firstn n (thread_fills 0 tweets))
          /\ (b = true -> entered t = thread_fills 0 tweets)).
Proof.
  intros Hlong Run. unfold post_tweet, logged_in_or_login.
  wp.
  replace (280 <? len content) with true by (symmetry; now apply Z.ltb_lt).
  rewrite Run.
  eapply runs_weaken; [apply post_tweet_thread_spec|]. cbv beta.
  intros r t [b [-> [Hpre [Htrue _]]]].
  exists b. simpl.
  split; [reflexivity|]. split; [assumption|].
  intros Hb. now apply Htrue.
Qed.

(** X13. For a content of more than 280 characters, [post_tweet] (logged
    in) never raises; what it enters in the page is, textarea after
    textarea, the first fragments of [_split_into_tweets(content)], each of
    at most 260 characters; and when it returns [True] all the fragments are
    entered, so the texts entered hold the non-whitespace characters of the
    content, in order. *)
Theorem post_tweet_enters_fragments (e : env) (content : str) :
  280 < len content ->
  exists b h tweets,
    run (post_tweet true content) e = (Done b, h)
    /\ _split_into_tweets content = Returned tweets
    /\ (exists n, entered h = firstn n (thread_fills 0 tweets))
    /\ Forall (fun p => len (snd p) <= TWEET_LIMIT) (entered h)
    /\ (b = true ->
        entered h = thread_fills 0 tweets
        /\ visible (concat (map snd (entered h))) = visible content).
Proof.
  intros Hlong.
  destruct (split_into_tweets_spec content) as [tweets [_ [Run [Hall P]]]].
  destruct (runs_run _ _ (post_tweet_long_spec content tweets Hlong Run) e)
    as [r [h [Hrun [b [-> [[n Hpre] Htrue]]]]]].
  exists b, h, tweets. split; [assumption|]. split; [assumption|].
  split; [eauto|]. split.
  - rewrite Hpre. apply Forall_prefix, thread_fills_within.
    eapply Forall_impl; [|exact Hall]. cbv beta. intros; lia.
  - intros Hb. specialize (Htrue Hb). split; [assumption|].
    rewrite Htrue, thread_fills_texts. now apply pieces_visible.
Qed.

Lemma post_tweet_enters_fragments_witness :
  exists b h tweets,
    run (post_tweet true (repeat "a"%char 300)) obliging = (Done b, h)
    /\ _split_into_tweets (repeat "a"%char 300) = Returned tweets
    /\ (exists n, entered h = firstn n (thread_fills 0 tweets)).
Proof.
  destruct (post_tweet_enters_fragments obliging (repeat "a"%char 300))
    as [b [h [tweets [Run [Split [Hpre _]]]]]].
  - vm_compute. reflexivity.
  - exists b, h, tweets. auto.
Defined.

(** X14. For a content of more than 280 characters that is only whitespace,
    [post_tweet] (logged in) opens the compose page, calls nothing else but
    the delay that follows, and returns [False]: the thread is empty and
    [content_list[0]] raises. *)
Theorem post_tweet_blank_content (e : env) (content : str) :
  280 < len content -> all_space content = true ->
  exists h,
    run (post_tweet true content) e = (Done false, h)
    /\ (map fst h = [Goto compose_url]
        \/ map fst h = [Goto compose_url; RandomDelay 3 5]).
Proof.
  intros Hlong Hblank.
  assert (Run : _split_into_tweets content = Returned []).
  { unfold _split_into_tweets. rewrite split_logged_blank; [reflexivity|].
    now apply strip_all_space. }
  unfold run, post_tweet, logged_in_or_login.
  replace (280 <? len content) with true by (symmetry; now apply Z.ltb_lt).
  rewrite Run.
  unfold post_tweet_thread, logged_in_or_login, pbind, try_except, perform,
    ret, raise. cbn [negb app].
  destruct (e [] (Goto compose_url)) as [v|]; [|eauto].
  destruct (e [(Goto compose_url, Returns v)] (RandomDelay 3 5)) as [v0|]; eauto.
Qed.

Lemma post_tweet_blank_content_witness :
  exists h,
    run (post_tweet true (repeat " "%char 300)) obliging
    = (Done false, h).
Proof.
  destruct (post_tweet_blank_content obliging (repeat " "%char 300))
    as [h [Run _]].
  - vm_compute. reflexivity.
  - vm_compute. reflexivity.
  - exists h. exact Run.
Defined.

(** The calls of a thread of two tweets on a page where everything works. *)
Example thread_of_two :
  let r := run (post_tweet_thread true [of_string "one"; of_string "two"])
               obliging in
  fst r = Done true
  /\ map fst (snd r)
     = [ Goto compose_url; RandomDelay 3 5;
         WaitForSelector (tweet_textarea 0) 10000; RandomDelay 1 2;
         Fill (tweet_textarea 0) (of_string "one"); RandomDelay 2 3;
         WaitForSelector (testid "addButton") 5000;
         HandleClick (testid "addButton") (WithDelay 100); RandomDelay 2 3;
         WaitForSelector (tweet_textarea 1) 5000;
         Fill (tweet_textarea 1) (of_string "two"); RandomDelay 2 3;
         WaitForSelector (testid "tweetButton") 5000;
         HandleClick (testid "tweetButton") Plain; RandomDelay 5 8 ].
Proof. vm_compute. split; reflexivity. Qed.

(** The calls of a comment on a page where everything works. *)
Example comment_on_obliging_page :
  let r := run (post_comment true (of_string "https://x.com/a/status/1")
                             (of_string "Nice."))
               obliging in
  fst r = Done true
  /\ map fst (snd r)
     = [ Goto (of_string "https://x.com/a/status/1"); RandomDelay 3 5;
         QuerySelector (testid "reply"); Click (testid "reply");
         RandomDelay 2 3;
         QuerySelector (testid "tweetTextarea_0");
         Fill (testid "tweetTextarea_0") (of_string "Nice.");
         RandomDelay 2 3;
         QuerySelector (testid "tweetButton"); Click (testid "tweetButton");
         RandomDelay 3 5 ].
Proof. vm_compute. split; reflexivity. Qed.

(** ** [_post_single_tweet] *)

Lemma entered_actions (t : trace) :
  entered t
  = flat_map (fun c => match c with Fill s x => [(s, x)] | _ => [] end)
             (actions t).
Proof.
  unfold actions. induction t as [|[c r] t IH]; [reflexivity|].
  destruct c, r; simpl; rewrite ?IH; reflexivity.
Qed.

Lemma value_startswith_spec (v : value) (prefix : str) :
  runs (value_startswith v prefix) (fun r t => t = []).
Proof. destruct v; simpl; wp; reflexivity. Qed.

Lemma value_contains_spec (needle : str) (v : value) :
  runs (value_contains needle v) (fun r t => t = []).
Proof. destruct v; simpl; wp; reflexivity. Qed.

Lemma away_from_home_spec :
  runs away_from_home (fun r t => entered t = []).
Proof.
  unfold away_from_home. wp; try reflexivity.
  eapply runs_weaken; [apply value_startswith_spec|]. cbv beta.
  intros r t ->. destruct r as [[|]|]; cbn [negb]; wp; try reflexivity.
  eapply runs_weaken; [apply value_startswith_spec|]. cbv beta.
  intros r t ->. destruct r; wp; reflexivity.
Qed.

Lemma or_by_script_spec (clicked : bool) (js : script) :
  runs (or_by_script clicked js) (fun r t => entered t = []).
Proof.
  unfold or_by_script. destruct clicked; cbn [negb]; wp; try reflexivity.
  eapply runs_weaken; [apply value_contains_spec|]. cbv beta.
  intros r t ->. destruct r as [[|]|]; wp; reflexivity.
Qed.

Lemma probe_click_entered (selectors : list str) :
  runs (probe Click selectors) (fun r t => (exists b, r = Done b) /\ entered t = []).
Proof.
  eapply runs_weaken; [apply probe_spec; reflexivity|]. cbv beta.
  intros r t [[-> H]|[-> [s [_ H]]]]; rewrite entered_actions, H; simpl; eauto.
Qed.

Lemma probe_fill_entered (content : str) (selectors : list str) :
  runs (probe (fun selector => Fill selector content) selectors)
       (fun r t =>
          (r = Done false /\ entered t = [])
          \/ (r = Done true
              /\ exists selector, In selector selectors
                                  /\ entered t = [(selector, content)])).
Proof.
  eapply runs_weaken; [apply probe_spec; reflexivity|]. cbv beta.
  intros r t [[-> H]|[-> [s [Hin H]]]]; rewrite entered_actions, H; simpl; eauto.
Qed.

(** One step through [_post_single_tweet]: the rule of the construct at the
    head, or the lemma of the helper called there. *)
Ltac single_step :=
  lazymatch goal with
  | |- runs away_from_home _ =>
      eapply runs_weaken; [apply away_from_home_spec|]; cbv beta;
      intros [[|]|] ? ?
  | |- runs (probe Click _) _ =>
      eapply runs_weaken; [apply probe_click_entered|]; cbv beta;
      intros ? ? [[[|] ->] ?]
  | |- runs (probe (fun selector => Fill selector _) _) _ =>
      eapply runs_weaken; [apply probe_fill_entered|]; cbv beta;
      intros ? ? [[-> ?]|[-> [? [? ?]]]]
  | |- runs (or_by_script _ _) _ =>
      eapply runs_weaken; [apply or_by_script_spec|]; cbv beta;
      intros [[|]|] ? ?
  | |- runs _ _ => wp_step
  end;
  cbv beta iota; cbn [negb].

Ltac single_leaf :=
  split;
  [ first [ discriminate
          | intros _; rewrite ?app_nil_r; repeat rewrite app_assoc;
            eexists; reflexivity ]
  | rewrite ?entered_app; cbn [entered app];
    repeat match goal with H : entered _ = _ |- _ => rewrite H end;
    cbn [entered app];
    split;
    [ first [ now left | right; eauto ]
    | first [ discriminate | intros _; eauto ] ] ].

(** [_post_single_tweet] raises only when the screenshot of its handler
    raises; the fills that return are none, or one fill of the content on a
    content selector; the result is [True] only after that fill. *)
Lemma post_single_tweet_spec (content : str) :
  runs (_post_single_tweet content)
       (fun r t =>
          (r = Exception ->
           exists t', t = t' ++ [(Screenshot (of_string "tweet_error.png"),
                                  Raises)])
          /\ (entered t = []
              \/ exists selector, In selector content_selectors
                                  /\ entered t = [(selector, content)])
          /\ (r = Done true ->
              exists selector, In selector content_selectors
                               /\ entered t = [(selector, content)])).
Proof.
  unfold _post_single_tweet.
  repeat single_step; single_leaf.
Qed.

(** X15. [_post_single_tweet] raises only when the screenshot taken by its
    handler raises; it fills the page at most once, with the content as it
    is, on one of its content selectors; and it returns [True] only after
    that fill. *)
Theorem single_tweet_entered_once (e : env) (content : str) :
  exists r h,
    run (_post_single_tweet content) e = (r, h)
    /\ (r = Exception ->
        exists h', h = h' ++ [(Screenshot (of_string "tweet_error.png"),
                               Raises)])
    /\ (entered h = []
        \/ exists selector, In selector content_selectors
                            /\ entered h = [(selector, content)])
    /\ (r = Done true ->
        exists selector, In selector content_selectors
                         /\ entered h = [(selector, content)]).
Proof. exact (runs_run _ _ (post_single_tweet_spec content) e). Qed.

(** ** [get_latest_tweet] *)

Lemma find_tweet_spec (selectors : list str) :
  runs (find_tweet selectors)
       (fun r t => (exists o, r = Done o) /\ actions t = []).
Proof.
  induction selectors as [|selector rest IH]; cbn [find_tweet].
  - wp. eauto.
  - assert (Hnext : forall t0, actions t0 = [] ->
              runs (find_tweet rest)
                   (fun r t => (exists o, r = Done o) /\ actions (t0 ++ t) = [])).
    { intros t0 A0. eapply runs_weaken; [exact IH|]. cbv beta.
      intros r t [Hr At]. rewrite actions_app, A0, At. auto. }
    wp.
    + destruct (truthy v); wp; [eauto | now apply Hnext].
    + now apply Hnext.
Qed.

Lemma startswith_site (href : str) :
  startswith (of_string "https://twitter.com" ++ href) (of_string "http") = true.
Proof. reflexivity. Qed.

Lemma get_latest_tweet_spec (user : str) :
  runs (get_latest_tweet true user)
       (fun r t =>
          exists o, r = Done o
          /\ actions t = []
          /\ match o with
             | None => True
             | Some d =>
                 username d = user
                 /\ exists s, url d = VStr s
                              /\ startswith s (of_string "http") = true
             end).
Proof.
  unfold get_latest_tweet, logged_in_or_login. cbv zeta.
  wp; try solve [exists None; auto].
  eapply runs_weaken; [apply find_tweet_spec|]. cbv beta.
  intros r t [[o ->] At]. cbv beta iota.
  destruct o as [element|]; wp;
    try solve [exists None; rewrite ?actions_app, ?At; auto].
  destruct (truthy v1); cbn [negb]; wp;
    try solve [exists None; rewrite ?actions_app, ?At; auto].
  destruct v2 as [| |href|]; cbn [value_startswith]; wp;
    try solve [exists None; rewrite ?actions_app, ?At; auto].
  destruct (startswith href (of_string "http")) eqn:Habs; cbn [negb prepend_site];
    wp; try solve [exists None; rewrite ?actions_app, ?At; auto];
    eexists; (split; [reflexivity|]); rewrite ?actions_app, ?At;
    (split; [reflexivity|]); cbn [username url];
    (split; [reflexivity|]); eexists; (split; [reflexivity|]).
  - exact Habs.
  - apply startswith_site.
Qed.

(** X16. Logged in, [get_latest_tweet] never raises and never clicks or
    fills; it returns [None] or a dictionary whose ["username"] is its
    argument and whose ["url"] is a string that starts with ["http"]. *)
Theorem latest_tweet_url_is_absolute (e : env) (user : str) :
  exists o h,
    run (get_latest_tweet true user) e = (Done o, h)
    /\ actions h = []
    /\ match o with
       | None => True
       | Some d =>
           username d = user
           /\ exists s, url d = VStr s
                        /\ startswith s (of_string "http") = true
       end.
Proof.
  destruct (runs_run _ _ (get_latest_tweet_spec user) e)
    as [r [h [Run [o [-> H]]]]].
  exists o, h. split; assumption.
Qed.

(** ** [post_tweet], whatever the length of the content *)

Lemma post_tweet_short_spec (content : str) :
  len content <= 280 ->
  runs (post_tweet true content)
       (fun r t =>
          (entered t = [] \/ exists selector, entered t = [(selector, content)])
          /\ (r = Done true ->
              exists selector, entered t = [(selector, content)])).
Proof.
  intros Hshort. unfold post_tweet, logged_in_or_login. wp.
  replace (280 <? len content) with false by (symmetry; apply Z.ltb_ge; lia).
  eapply runs_weaken; [apply post_single_tweet_spec|]. cbv beta.
  intros r t [_ [Hent Htrue]]. simpl. split.
  - destruct Hent as [E|[s [_ E]]]; eauto.
  - intros Hr. destruct (Htrue Hr) as [s [_ E]]. eauto.
Qed.

(** X17. Whatever the content, the texts that [post_tweet] (logged in)
    enters in the page have at most 280 characters each, and when it
    returns [True] they are, in order, pieces of the content with nothing
    but whitespace left out between them: the content itself up to 280
    characters, its fragments beyond. *)
Theorem post_tweet_enters_content (e : env) (content : str) :
  exists r h,
    run (post_tweet true content) e = (r, h)
    /\ Forall (fun p => len (snd p) <= 280) (entered h)
    /\ (r = Done true -> pieces_of (map snd (entered h)) content).
Proof.
  destruct (Z.le_gt_cases (len content) 280) as [Hshort|Hlong].
  - destruct (runs_run _ _ (post_tweet_short_spec content Hshort) e)
      as [r [h [Run [Hent Htrue]]]].
    exists r, h. split; [assumption|]. split.
    + destruct Hent as [->|[s ->]]; repeat constructor. exact Hshort.
    + intros Hr. destruct (Htrue Hr) as [s ->]. simpl.
      rewrite <- (app_nil_r content) at 2.
      apply (pieces_next [] content [] []); [reflexivity|].
      now apply pieces_end.
  - destruct (split_into_tweets_spec content) as [tweets [_ [Split [Hall P]]]].
    destruct (runs_run _ _ (post_tweet_long_spec content tweets Hlong Split) e)
      as [r [h [Run [b [-> [[n Hpre] Htrue]]]]]].
    exists (Done b), h. split; [assumption|]. split.
    + rewrite Hpre. apply Forall_prefix.
      assert (H : Forall (fun p => len (snd p) <= TWEET_LIMIT)
                         (thread_fills 0 tweets)).
      { apply thread_fills_within. eapply Forall_impl; [|exact Hall].
        cbv beta. intros; lia. }
      eapply Forall_impl; [|exact H]. cbv beta. unfold TWEET_LIMIT. intros; lia.
    + intros Hr. injection Hr as ->.
      rewrite (Htrue eq_refl), thread_fills_texts. exact P.
Qed.

(** The calls of a single tweet on the sample page. *)
Example single_tweet_on_sample_page :
  let r := run (_post_single_tweet (of_string "Hello")) sample_page in
  fst r = Done true
  /\ map fst (snd r)
     = [ PageUrl;
         Screenshot (of_string "home_before_compose.png");
         QuerySelector (attr "a" "href" "/compose/tweet");
         Click (attr "a" "href" "/compose/tweet");
         RandomDelay 2 4;
         Screenshot (of_string "compose_dialog.png");
         QuerySelector (attr "div" "role" "textbox" ++ testid "tweetTextarea_0");
         Fill (attr "div" "role" "textbox" ++ testid "tweetTextarea_0")
              (of_string "Hello");
         RandomDelay 2 4;
         QuerySelector (attr "div" "data-testid" "tweetButtonInline");
         Click (attr "div" "data-testid" "tweetButtonInline");
         RandomDelay 4 8;
         Screenshot (of_string "after_posting_tweet.png") ].
Proof. vm_compute. split; reflexivity. Qed.

(** On a page whose [url] is no string the single tweet fails at once, in
    the handler. *)
Example single_tweet_on_obliging_page :
  run (_post_single_tweet (of_string "Hello")) obliging
  = (Done false,
     [ (PageUrl, Returns VHandle);
       (Screenshot (of_string "tweet_error.png"), Returns VHandle) ]).
Proof. vm_compute. reflexivity. Qed.

(** The latest tweet on the sample page: the relative link is made
    absolute. *)
Example latest_tweet_on_sample_page :
  fst (run (get_latest_tweet true (of_string "someone")) sample_page)
  = Done (Some {| url := VStr (of_string "https://twitter.com/someone/status/1");
                  text := VStr (of_string "Hello");
                  username := of_string "someone" |}).
Proof. vm_compute. reflexivity. Qed.

(** ** One textarea for each tweet of a thread *)

Lemma decimal_injective (n m : nat) : decimal n = decimal m -> n = m.
Proof.
  unfold decimal, of_string. intros E.
  apply (f_equal string_of_list_ascii) in E.
  rewrite !string_of_list_ascii_of_string in E.
  apply (f_equal NilEmpty.uint_of_string) in E.
  rewrite !NilEmpty.usu in E. injection E as E.
  apply (f_equal Nat.of_uint) in E.
  now rewrite !DecimalNat.Unsigned.of_to in E.
Qed.

Lemma tweet_textarea_injective : Injective tweet_textarea.
Proof.
  intros n m E. unfold tweet_textarea in E.
  apply app_inv_head in E. injection E as E.
  apply decimal_injective.
  exact (app_inv_tail _ _ _ E).
Qed.

Lemma thread_fills_selectors (contents : list str) : forall i,
  map fst (thread_fills i contents)
  = map tweet_textarea (seq i (length contents)).
Proof.
  induction contents as [|c rest IH]; intros i; simpl; [reflexivity|].
  now rewrite IH.
Qed.

Lemma thread_fills_In (contents : list str) : forall i selector text,
  In (selector, text) (thread_fills i contents) ->
  exists n, selector = tweet_textarea (i + n)
            /\ nth_error contents n = Some text.
Proof.
  induction contents as [|c rest IH]; intros i selector text Hin;
    [contradiction|].
  destruct Hin as [E|Hin].
  - injection E as <- <-. exists 0%nat. now rewrite Nat.add_0_r.
  - destruct (IH _ _ _ Hin) as [n [-> N]].
    exists (S n). split; [f_equal; lia | exact N].
Qed.

Lemma NoDup_prefix {A : Type} (l : list A) : forall n,
  NoDup l -> NoDup (firstn n l).
Proof.
  induction l as [|x l IH]; intros n H; destruct n; simpl; try constructor;
    inversion H; subst; auto.
  intros Hin. apply H2. revert Hin. clear. revert n.
  induction l as [|y l IH]; intros [|n]; simpl; try contradiction.
  intros [->|Hin]; [now left | right; eauto].
Qed.

Lemma In_prefix {A : Type} (x : A) (l : list A) : forall n,
  In x (firstn n l) -> In x l.
Proof.
  induction l as [|y l IH]; intros [|n]; simpl; try contradiction.
  intros [->|Hin]; [now left | right; eauto].
Qed.

(** X18. In a thread no two tweets are entered in the same textarea, and
    the text entered in the textarea [tweetTextarea_n] is the tweet number
    [n] of the list (from 0). *)
Theorem thread_textareas_distinct (e : env) (content_list : list str) :
  exists r h,
    run (post_tweet_thread true content_list) e = (r, h)
    /\ NoDup (map fst (entered h))
    /\ forall selector text,
        In (selector, text) (entered h) ->
        exists n, selector = tweet_textarea n
                  /\ nth_error content_list n = Some text.
Proof.
  destruct (runs_run _ _ (post_tweet_thread_spec content_list) e)
    as [r [h [Run [b [-> [[n Hpre] _]]]]]].
  exists (Done b), h. split; [assumption|]. rewrite Hpre. split.
  - rewrite <- firstn_map, thread_fills_selectors.
    apply NoDup_prefix, Injective_map_NoDup;
      [exact tweet_textarea_injective | apply seq_NoDup].
  - intros selector text Hin. apply In_prefix in Hin.
    exact (thread_fills_In _ _ _ _ Hin).
Qed.
